(** * cluster-iq: the tag identity resolver and the agent's executor registry

    A shallow embedding of [internal/inventory/tag.go] and of the
    [AgentService] part of the agent's [main] package, with the theorems
    that settle the specification's statements about them.

    Go strings are byte sequences: they are embedded as [string] (one
    [ascii] per byte).  The two packages of the Go standard library that
    [tag.go] calls, [strings] and [regexp], are embedded as far as the
    three patterns of the file need them. *)

From Stdlib Require Import Ascii String NArith Bool Arith Lia.
From stdpp Require Import base option list gmap strings.

Local Open Scope string_scope.

(** ** unicode/utf8: the width of the rune at the front of a string *)
Module utf8.

Definition byte_of (a : ascii) : N := N_of_ascii a.

Definition between (lo hi : N) (a : ascii) : bool :=
  ((lo <=? byte_of a) && (byte_of a <=? hi))%N.

(** Continuation bytes, [locb] to [hicb]. *)
Definition is_cont (a : ascii) : bool := between 0x80 0xBF a.

(** The table [first] with [acceptRanges]: for a leading byte of a
    multi-byte sequence, its size and the range accepted for the second
    byte; [None] for ASCII and for the bytes that start no sequence. *)
Definition first (a : ascii) : option (nat * N * N) :=
  let b := byte_of a in
  if (b <? 0xC2)%N then None
  else if (b <=? 0xDF)%N then Some (2, 0x80%N, 0xBF%N)
  else if (b =? 0xE0)%N then Some (3, 0xA0%N, 0xBF%N)
  else if (b =? 0xED)%N then Some (3, 0x80%N, 0x9F%N)
  else if (b <=? 0xEF)%N then Some (3, 0x80%N, 0xBF%N)
  else if (b =? 0xF0)%N then Some (4, 0x90%N, 0xBF%N)
  else if (b <=? 0xF3)%N then Some (4, 0x80%N, 0xBF%N)
  else if (b =? 0xF4)%N then Some (4, 0x80%N, 0x8F%N)
  else None.

(** The second result of [DecodeRuneInString]: 0 on the empty string, 1
    for ASCII and for an invalid or truncated sequence (which decodes to
    [RuneError]), else the size of the sequence. *)
Definition rune_width (s : string) : nat :=
  match s with
  | EmptyString => 0
  | String s0 t0 =>
    match first s0 with
    | None => 1
    | Some (sz, lo, hi) =>
      if (String.length s <? sz)%nat then 1 else
      match t0 with
      | EmptyString => 1
      | String s1 t1 =>
        if negb (between lo hi s1) then 1
        else if (sz <=? 2)%nat then 2 else
        match t1 with
        | EmptyString => 1
        | String s2 t2 =>
          if negb (is_cont s2) then 1
          else if (sz <=? 3)%nat then 3 else
          match t2 with
          | EmptyString => 1
          | String s3 _ => if negb (is_cont s3) then 1 else 4
          end
        end
      end
    end
  end.

(** Only the single byte 0x0A decodes to the rune '\n'. *)
Definition rune_is_newline (s : string) : bool :=
  match s with
  | String a _ => Ascii.eqb a "010"
  | EmptyString => false
  end.

End utf8.

(** ** strings: [Contains] *)
Module strings.

Fixpoint HasPrefix (s prefix : string) : bool :=
  match prefix, s with
  | EmptyString, _ => true
  | String p prefix', String a s' => Ascii.eqb a p && HasPrefix s' prefix'
  | String _ _, EmptyString => false
  end.

(** [Contains s substr] reports whether [substr] is within [s]. *)
Fixpoint Contains (s substr : string) : bool :=
  HasPrefix s substr ||
  match s with
  | EmptyString => false
  | String _ s' => Contains s' substr
  end.

(** The Go slice expression [s[i:j]]. *)
Definition slice (s : string) (i j : nat) : string := substring i (j - i) s.

End strings.

(** ** regexp: the patterns of [tag.go], compiled and run

    Go's [regexp] finds the leftmost match and, among the matches that
    start there, the one a backtracking search meets first
    (leftmost-first).  The matcher below is that backtracking search,
    written with continuations.  The input is decoded rune by rune: [.]
    takes one rune of [utf8.rune_width] bytes. *)
Module regexp.

(** The operators of [regexp/syntax] that the patterns use. *)
Inductive Regexp : Type :=
| OpNoMatch                                  (* matches no string *)
| OpEmptyMatch                               (* matches the empty string *)
| OpLiteral (c : ascii)                      (* an ASCII literal *)
| OpAnyCharNotNL                             (* [.] without flag s *)
| OpEndText                                  (* [$] without flag m *)
| OpCapture (i : nat) (r : Regexp)           (* [( )], numbered from 1 *)
| OpStar (greedy : bool) (r : Regexp)        (* [*] and [*?] *)
| OpRepeat (n : nat) (r : Regexp)            (* [{n}] and [{n}?] *)
| OpConcat (r1 r2 : Regexp).

(** *** Parsing *)

Definition is_meta (c : ascii) : bool :=
  existsb (Ascii.eqb c) (list_ascii_of_string "\.+*?()|[]{}^$").

Definition is_digit (c : ascii) : bool :=
  (48 <=? nat_of_ascii c)%nat && (nat_of_ascii c <=? 57)%nat.

(** Decimal digits at the front of [s], most significant first. *)
Fixpoint parse_digits (acc : nat) (s : string) : nat * string :=
  match s with
  | String c t =>
    if is_digit c then parse_digits (10 * acc + (nat_of_ascii c - 48)) t
    else (acc, s)
  | EmptyString => (acc, s)
  end.

(** An optional [?] after a repetition makes it non-greedy. *)
Definition parse_lazy (s : string) : bool * string :=
  match s with
  | String "?" t => (false, t)
  | _ => (true, s)
  end.

(** A repetition operator directly after another is rejected
    ("invalid nested repetition operator"), [+], [?] and [{n,m}] are
    outside the embedded subset. *)
Definition starts_repetition (s : string) : bool :=
  match s with
  | String c _ => existsb (Ascii.eqb c) (list_ascii_of_string "*+?{")
  | EmptyString => false
  end.

Definition parse_postfix (atom : Regexp) (s : string)
  : option (Regexp * string) :=
  match s with
  | String "*" t =>
    let '(greedy, t') := parse_lazy t in
    if starts_repetition t' then None else Some (OpStar greedy atom, t')
  | String "{" t =>
    match t with
    | String d _ =>
      if is_digit d then
        match parse_digits 0 t with
        | (n, String "}" t') =>
          let '(_, t'') := parse_lazy t' in
          if starts_repetition t'' then None
          else Some (OpRepeat n atom, t'')
        | _ => None
        end
      else None
    | EmptyString => None
    end
  | String "+" _ | String "?" _ => None
  | _ => Some (atom, s)
  end.

(** A concatenation, up to the end of the pattern or to the [)] that
    closes the group being read; [ncap] counts the groups opened so
    far.  Every call consumes a character, so [String.length] of the
    pattern plus one is enough fuel. *)
Fixpoint parse_concat (fuel : nat) (s : string) (ncap : nat)
  : option (Regexp * string * nat) :=
  match fuel with
  | O => None
  | S fuel' =>
    match s with
    | EmptyString => Some (OpEmptyMatch, s, ncap)
    | String c t =>
      if Ascii.eqb c ")" then Some (OpEmptyMatch, s, ncap) else
      atom ← (if Ascii.eqb c "(" then
                match parse_concat fuel' t (S ncap) with
                | Some (r, String ")" t', n') =>
                  Some (OpCapture (S ncap) r, t', n')
                | _ => None
                end
              else if Ascii.eqb c "." then Some (OpAnyCharNotNL, t, ncap)
              else if Ascii.eqb c "$" then Some (OpEndText, t, ncap)
              else if is_meta c then None
              else Some (OpLiteral c, t, ncap));
      let '(a, t1, n1) := atom in
      '(a', t2) ← parse_postfix a t1;
      '(rest, t3, n3) ← parse_concat fuel' t2 n1;
      Some (OpConcat a' rest, t3, n3)
    end
  end.

Definition Compile (expr : string) : option Regexp :=
  match parse_concat (S (String.length expr)) expr 0 with
  | Some (r, EmptyString, _) => Some r
  | _ => None
  end.

(** [MustCompile] panics when the pattern does not parse; the panic is
    embedded as the pattern that matches nothing.  The patterns of
    [tag.go] parse (see [clusterNameRegexp_compiles] and
    [infraIDRegexp_compiles]). *)
Definition MustCompile (expr : string) : Regexp :=
  default OpNoMatch (Compile expr).

Fixpoint NumSubexp (r : Regexp) : nat :=
  match r with
  | OpCapture _ r => S (NumSubexp r)
  | OpStar _ r | OpRepeat _ r => NumSubexp r
  | OpConcat r1 r2 => NumSubexp r1 + NumSubexp r2
  | _ => 0
  end.

(** *** Matching *)

(** A thread of the search: the byte offset reached, the input still
    to read, and the groups closed so far (latest first). *)
Record thread : Type := Thread {
  pos : nat;
  rest : string;
  caps : list (nat * (nat * nat))
}.

Definition advance (w : nat) (t : thread) : thread :=
  Thread (pos t + w) (string_of_list_ascii (drop w (list_ascii_of_string (rest t))))
         (caps t).

Definition orelse {A} (x y : option A) : option A :=
  match x with Some _ => x | None => y end.

(** [r*] and [r*?] around [k], given the search for [r] as [body]: one
    more [r] before the rest, or the rest at once, in the order the
    greediness asks for.  An iteration that consumes nothing is cut; an
    iteration consumes a byte at least, so [fuel] above the length of
    the input left is never used up. *)
Definition star (greedy : bool)
           (body : (thread → option thread) → thread → option thread)
           (k : thread → option thread) : nat → thread → option thread :=
  fix loop (fuel : nat) (t : thread) : option thread :=
    match fuel with
    | O => k t
    | S fuel' =>
      let again :=
        body (λ t', if (pos t' <=? pos t)%nat then None else loop fuel' t') t in
      if greedy then orelse again (k t) else orelse (k t) again
    end.

(** [r{n}]: [n] times [r], then [k]. *)
Definition repeat (body : (thread → option thread) → thread → option thread)
  : nat → (thread → option thread) → thread → option thread :=
  fix rep (n : nat) (k : thread → option thread) : thread → option thread :=
    match n with
    | O => k
    | S n' => body (rep n' k)
    end.

(** [run r k t] is the first success of the backtracking search for [r]
    from [t], continued by [k]. *)
Fixpoint run (r : Regexp) (k : thread → option thread) (t : thread)
  : option thread :=
  match r with
  | OpNoMatch => None
  | OpEmptyMatch => k t
  | OpLiteral c =>
    match rest t with
    | String a _ => if Ascii.eqb a c then k (advance 1 t) else None
    | EmptyString => None
    end
  | OpAnyCharNotNL =>
    match rest t with
    | String _ _ =>
      if utf8.rune_is_newline (rest t) then None
      else k (advance (utf8.rune_width (rest t)) t)
    | EmptyString => None
    end
  | OpEndText =>
    match rest t with
    | EmptyString => k t
    | String _ _ => None
    end
  | OpCapture i r' =>
    run r' (λ t', k (Thread (pos t') (rest t')
                            ((i, (pos t, pos t')) :: caps t'))) t
  | OpStar greedy r' => star greedy (run r') k (S (String.length (rest t))) t
  | OpRepeat n r' => repeat (run r') n k t
  | OpConcat r1 r2 => run r1 (run r2 k) t
  end.

(** The unanchored search: the first start offset, stepping by runes,
    from which [re] matches. *)
Fixpoint search (fuel : nat) (re : Regexp) (t : thread)
  : option (nat * thread) :=
  match fuel with
  | O => None
  | S fuel' =>
    match run re Some t with
    | Some t' => Some (pos t, t')
    | None =>
      match rest t with
      | EmptyString => None
      | String _ _ =>
        search fuel' re (advance (utf8.rune_width (rest t)) (Thread (pos t) (rest t) []))
      end
    end
  end.

(** The text of group [i] of a match, empty when the group took no
    part in it. *)
Definition group (s : string) (t : thread) (i : nat) : string :=
  match list_find (λ c, fst c = i) (caps t) with
  | Some (_, (_, (b, e))) => strings.slice s b e
  | None => ""
  end.

(** [FindAllStringSubmatch re s 1]: at most one match, the leftmost
    one, as the slice of its text followed by the text of its
    [NumSubexp re] groups. *)
Definition FindAllStringSubmatch1 (re : Regexp) (s : string)
  : list (list string) :=
  match search (S (String.length s)) re (Thread 0 s []) with
  | Some (b, t) =>
    [strings.slice s b (pos t) :: map (group s t) (seq 1 (NumSubexp re))]
  | None => []
  end.

(** [MatchString re s]: whether [s] contains a match of [re]. *)
Definition MatchString (re : Regexp) (s : string) : bool :=
  match search (S (String.length s)) re (Thread 0 s []) with
  | Some _ => true
  | None => false
  end.

(** Two patterns that differ only in where their groups are, in the
    greediness of their stars and in empty concatenations: such
    patterns match the same texts, with different submatches. *)
Inductive similar : Regexp → Regexp → Prop :=
| similar_no_match : similar OpNoMatch OpNoMatch
| similar_empty_match : similar OpEmptyMatch OpEmptyMatch
| similar_literal c : similar (OpLiteral c) (OpLiteral c)
| similar_any : similar OpAnyCharNotNL OpAnyCharNotNL
| similar_end : similar OpEndText OpEndText
| similar_capture_l i r r' : similar r r' → similar (OpCapture i r) r'
| similar_capture_r i r r' : similar r r' → similar r (OpCapture i r')
| similar_star g g' r r' : similar r r' → similar (OpStar g r) (OpStar g' r')
| similar_repeat n r r' : similar r r' → similar (OpRepeat n r) (OpRepeat n r')
| similar_concat r1 r2 r1' r2' :
    similar r1 r1' → similar r2 r2' → similar (OpConcat r1 r2) (OpConcat r1' r2')
| similar_concat_empty_l r r' : similar r r' → similar (OpConcat r OpEmptyMatch) r'
| similar_concat_empty_r r r' : similar r r' → similar r (OpConcat r' OpEmptyMatch).

(** Two threads at the same place of the input. *)
Definition same_place (t1 t2 : thread) : Prop :=
  pos t1 = pos t2 ∧ rest t1 = rest t2.

Definition succeeds {A} (o : option A) : bool :=
  match o with Some _ => true | None => false end.

(** Continuations that succeed together from the same place. *)
Definition same_success (k1 k2 : thread → option thread) : Prop :=
  ∀ t1 t2, same_place t1 t2 → succeeds (k1 t1) = succeeds (k2 t2).

(** [y] is what is left of [s] after some of it was read. *)
Definition is_suffix (y s : string) : Prop := ∃ x, s = x ++ y.

(** Where a search goes on, the input left is a suffix of the input it
    started from. *)
Definition moves_on (f : (thread → option thread) → thread → option thread)
  : Prop :=
  ∀ k t res, f k t = Some res →
             ∃ t', is_suffix (rest t') (rest t) ∧ k t' = Some res.

(** The pattern left after the first [n] items of a concatenation. *)
Fixpoint after_items (n : nat) (r : Regexp) : Regexp :=
  match n, r with
  | S n', OpConcat _ r2 => after_items n' r2
  | _, _ => r
  end.

End regexp.

(** ** internal/inventory/tag.go *)
Module inventory.

(** Regular expression for the cluster's name in the AWS tags set by
    [openshift-installer]. *)
Definition clusterNameRegexp : string := "kubernetes.io/cluster/(.*?)-.{5}$".
(** Regular expression for the InfrastructureID. *)
Definition infraIDRegexp : string := "kubernetes.io/cluster/.*-(.{5}?)$".
(** Declared next to the other two, and used by no function. *)
Definition clusterIDRegexp : string := "kubernetes.io/cluster/(.*)$".

Definition unknownClusterNameCode : string := "UNKNOWN-CLUSTER".
Definition unknownClusterIDCode : string := "UNKNOWN-CLUSTER".

(** Tag models generic tags as a Key-Value object. *)
Record Tag : Type := mkTag {
  Key : string;
  Value : string;
  InstanceID : string
}.

Definition NewTag (key value instanceID : string) : Tag :=
  {| Key := key; Value := value; InstanceID := instanceID |}.

(** [var resultTag Tag]: the zero value of the struct. *)
Definition zeroTag : Tag := {| Key := ""; Value := ""; InstanceID := "" |}.

(** [LookForTagByKey] declares [resultTag], never assigns it, and
    returns its address at the first tag whose key is [key]; [None] is
    the nil pointer. *)
Fixpoint LookForTagByKey (key : string) (tags : list Tag) : option Tag :=
  let resultTag := zeroTag in
  match tags with
  | [] => None
  | tag :: tags' =>
    if String.eqb (Key tag) key then Some resultTag
    else LookForTagByKey key tags'
  end.

(** [res[0][1]] of a non-empty result: the text of the first group.
    Every match holds [1 + NumSubexp] strings and both patterns have a
    group, so the index is in range. *)
Definition first_submatch (res : list (list string)) : string :=
  match res with
  | m :: _ => nth 1 m ""
  | [] => ""
  end.

Definition parseClusterName (key : string) : string :=
  let re := regexp.MustCompile clusterNameRegexp in
  let res := regexp.FindAllStringSubmatch1 re key in
  if (length res <=? 0)%nat then unknownClusterNameCode
  else first_submatch res.

(** Compiles [clusterNameRegexp], as the source does. *)
Definition parseClusterID (key : string) : string :=
  let re := regexp.MustCompile clusterNameRegexp in
  let res := regexp.FindAllStringSubmatch1 re key in
  if (length res <=? 0)%nat then unknownClusterIDCode
  else first_submatch res.

Definition parseInfraID (key : string) : string :=
  let re := regexp.MustCompile infraIDRegexp in
  let res := regexp.FindAllStringSubmatch1 re key in
  if (length res <=? 0)%nat then ""
  else first_submatch res.

(** Returns the [Key] field of what [LookForTagByKey] points to. *)
Definition GetOwnerFromTags (tags : list Tag) : string :=
  match LookForTagByKey "Owner" tags with
  | Some result => Key result
  | None => ""
  end.

Definition GetInstanceNameFromTags (tags : list Tag) : string :=
  match LookForTagByKey "Name" tags with
  | Some result => Key result
  | None => ""
  end.

(** The contract the specification words for [GetOwnerFromTags] and
    [GetInstanceNameFromTags], written from its sentence and not from
    the source: the [Value] of the first tag whose [Key] equals [key],
    the empty string when there is none. *)
Definition spec_value_of_key (key : string) (tags : list Tag) : string :=
  match List.find (λ tag, String.eqb (Key tag) key) tags with
  | Some tag => Value tag
  | None => ""
  end.

(** An ASCII character other than the newline: one byte that [.]
    takes as one rune. *)
Definition is_plain (a : ascii) : bool :=
  (N_of_ascii a <? 128)%N && negb (Ascii.eqb a "010").

(** A text made of such characters, as the names and the suffixes that
    [openshift-installer] writes are. *)
Fixpoint plain_text (s : string) : bool :=
  match s with
  | EmptyString => true
  | String a s' => is_plain a && plain_text s'
  end.

(** The key [openshift-installer] gives the tag of a cluster: the
    cluster's name and its infrastructure ID after the marker. *)
Definition installer_key (name suffix : string) : string :=
  "kubernetes.io/cluster/" ++ name ++ "-" ++ suffix.

(** Whether the sixth character from the end of [key] is a dash: the
    place of the dash when [key] ends with a dash and five one-byte
    characters. *)
Definition dash_before_last_five (key : string) : bool :=
  (6 <=? String.length key)%nat &&
  match String.get (String.length key - 6) key with
  | Some c => Ascii.eqb c "-"
  | None => false
  end.

Section ClusterTag.

(** The constant [ClusterTagKey] is declared in another file of the
    package, which is not part of the sources at hand: the resolver
    is embedded for any value of it. *)
Variable ClusterTagKey : string.

Fixpoint GetClusterIDFromTags (tags : list Tag) : string :=
  match tags with
  | tag :: tags' =>
    if strings.Contains (Key tag) ClusterTagKey then parseClusterID (Key tag)
    else GetClusterIDFromTags tags'
  | [] => unknownClusterNameCode
  end.

Fixpoint GetClusterNameFromTags (tags : list Tag) : string :=
  match tags with
  | tag :: tags' =>
    if strings.Contains (Key tag) ClusterTagKey then parseClusterName (Key tag)
    else GetClusterNameFromTags tags'
  | [] => unknownClusterNameCode
  end.

Fixpoint GetInfraIDFromTags (tags : list Tag) : string :=
  match tags with
  | tag :: tags' =>
    if strings.Contains (Key tag) ClusterTagKey then parseInfraID (Key tag)
    else GetInfraIDFromTags tags'
  | [] => unknownClusterNameCode
  end.

(** The first tag, in list order, whose key contains the marker. *)
Definition first_cluster_tag (tags : list Tag) : option Tag :=
  List.find (λ tag, strings.Contains (Key tag) ClusterTagKey) tags.

End ClusterTag.

End inventory.

(** ** The agent: [AgentService], [AddExecutor], [createExecutors] *)
Module agent.

(** Modelled from the spec: the type [inventory.CloudProvider] and its
    constants [AWSProvider], [GCPProvider] and [AzureProvider] are
    declared outside the sources at hand; the specification gives the
    provider of an account as "enumerated: AWS, GCP, Azure, ...".
    [UnknownProvider] stands for every other value, which no [case] of
    the [switch] in [createExecutors] names. *)
Inductive CloudProvider : Type :=
| AWSProvider
| GCPProvider
| AzureProvider
| UnknownProvider.

(** [credentials.AccountConfig], with the fields [createExecutors]
    reads. *)
Record AccountConfig : Type := mkAccountConfig {
  Provider : CloudProvider;
  Name : string;
  User : string;
  Key : string
}.

(** The Go [error] interface, by its message; [None] of [option error]
    is the nil error. *)
Definition error : Type := string.
Definition Errorf (msg : string) : error := msg.

(** What the agent calls in the packages [inventory],
    [cloud_executors] and [credentials], whose code is not part of the
    sources at hand.  [CloudExecutor] holds the non-nil values of the
    Go interface, an [option CloudExecutor] is an interface value and
    [None] is nil; [NewAWSExecutor] may return nil.  (An interface value
    that wraps a nil pointer of a concrete type is not nil for
    [exec == nil]: it is a value of [CloudExecutor].) *)
Class Packages : Type := {
  Account : Type;
  NewAccount : string → string → CloudProvider → string → string → Account;
  CloudExecutor : Type;
  GetAccountName : CloudExecutor → string;
  NewAWSExecutor : Account → option CloudExecutor;
  ReadCloudAccounts : string → list AccountConfig * option error
}.

(** [config.AgentConfig], with the one field read here,
    [Credentials.CredentialsFile]. *)
Record AgentConfig : Type := mkAgentConfig {
  CredentialsFile : string
}.

(** The [zap.Logger] is embedded by what was logged to it, oldest
    entry first. *)
Inductive Level : Type := InfoLevel | WarnLevel | ErrorLevel.

Record Entry : Type := mkEntry {
  level : Level;
  message : string;
  fields : list (string * string)
}.

Section Agent.

Context `{Packages}.

Record AgentService : Type := mkAgentService {
  cfg : AgentConfig;
  executors : gmap string CloudExecutor;
  logger : list Entry
}.

(** [make(map[string]cexec.CloudExecutor, 0)] is the empty map. *)
Definition NewAgentService (cfg : AgentConfig) (logger : list Entry)
  : AgentService :=
  {| cfg := cfg; executors := ∅; logger := logger |}.

(** Methods on [*AgentService] read and update the receiver. *)
Definition M (A : Type) : Type := AgentService → A * AgentService.

Definition ret {A} (x : A) : M A := λ a, (x, a).

Definition bind {A B} (c : M A) (f : A → M B) : M B :=
  λ a, let '(x, a') := c a in f x a'.

Notation "x <- c ;; k" := (bind c (λ x, k))
  (at level 100, c at next level, right associativity).
Notation "c ;; k" := (bind c (λ _, k))
  (at level 100, right associativity).

Definition log (l : Level) (msg : string) (fs : list (string * string))
  : M unit :=
  λ a, (tt, {| cfg := cfg a; executors := executors a;
               logger := logger a ++ [mkEntry l msg fs] |}).

(** [a.executors[exec.GetAccountName()] = exec] *)
Definition set_executor (e : CloudExecutor) : M unit :=
  λ a, (tt, {| cfg := cfg a;
               executors := <[GetAccountName e := e]> (executors a);
               logger := logger a |}).

Definition AddExecutor (exec : option CloudExecutor) : M (option error) :=
  match exec with
  | None => ret (Some (Errorf "Cannot add a nil Executor"))
  | Some e => set_executor e ;; ret None
  end.

Definition readCloudProviderAccounts
  : M (list AccountConfig * option error) :=
  λ a,
    let '(accounts, err) := ReadCloudAccounts (CredentialsFile (cfg a)) in
    match err with
    | Some e => (([], Some e), a)
    | None => ((accounts, None), a)
    end.

(** The [for] loop of [createExecutors]; a [return] inside it ends
    the recursion. *)
Fixpoint createExecutors_loop (accounts : list AccountConfig)
  : M (option error) :=
  match accounts with
  | [] => ret None
  | account :: accounts' =>
    match Provider account with
    | AWSProvider =>
      log InfoLevel "Creating Executor for AWS account"
          [("account_name", Name account)] ;;
      let exec :=
        NewAWSExecutor (NewAccount "" (Name account) (Provider account)
                                   (User account) (Key account)) in
      err <- AddExecutor exec ;;
      match err with
      | Some e =>
        log ErrorLevel "Cannot create an AWSEexecutor for account"
            [("account_name", Name account); ("error", e)] ;;
        ret (Some e)
      | None => createExecutors_loop accounts'
      end
    | GCPProvider =>
      log WarnLevel "Failed to create Executor for GCP account"
          [("account", Name account); ("reason", "not implemented")] ;;
      createExecutors_loop accounts'
    | AzureProvider =>
      log WarnLevel "Failed to create Executor for Azure account"
          [("account", Name account); ("reason", "not implemented")] ;;
      createExecutors_loop accounts'
    | UnknownProvider => createExecutors_loop accounts'
    end
  end.

Definition createExecutors : M (option error) :=
  r <- readCloudProviderAccounts ;;
  match r with
  | (_, Some err) => ret (Some err)
  | (accounts, None) => createExecutors_loop accounts
  end.

(** [a] after one more entry was logged. *)
Definition logged (w : Entry) (a : AgentService) : AgentService :=
  {| cfg := cfg a; executors := executors a; logger := logger a ++ [w] |}.

(** The executor [createExecutors] builds for [account]. *)
Definition executor_for (account : AccountConfig) : option CloudExecutor :=
  NewAWSExecutor (NewAccount "" (Name account) (Provider account)
                             (User account) (Key account)).

(** The provider is one whose [case] only logs a warning. *)
Definition unimplemented (p : CloudProvider) : bool :=
  match p with
  | GCPProvider | AzureProvider => true
  | AWSProvider | UnknownProvider => false
  end.

(** The provider has a [case] in the [switch] of [createExecutors]. *)
Definition known (p : CloudProvider) : bool :=
  match p with
  | AWSProvider | GCPProvider | AzureProvider => true
  | UnknownProvider => false
  end.

(** What [createExecutors] logs for an account it gets past. *)
Definition entries_for (account : AccountConfig) : list Entry :=
  match Provider account with
  | AWSProvider =>
    [mkEntry InfoLevel "Creating Executor for AWS account"
             [("account_name", Name account)]]
  | GCPProvider =>
    [mkEntry WarnLevel "Failed to create Executor for GCP account"
             [("account", Name account); ("reason", "not implemented")]]
  | AzureProvider =>
    [mkEntry WarnLevel "Failed to create Executor for Azure account"
             [("account", Name account); ("reason", "not implemented")]]
  | UnknownProvider => []
  end.

(** The names of the AWS accounts of a list, in list order. *)
Definition aws_names (accounts : list AccountConfig) : list string :=
  flat_map (λ account, match Provider account with
                       | AWSProvider => [Name account]
                       | _ => []
                       end) accounts.

(** The map after the executors of the AWS accounts of a list were put
    in, one after the other. *)
Definition registry_after (accounts : list AccountConfig)
           (m : gmap string CloudExecutor) : gmap string CloudExecutor :=
  foldl (λ m account,
           match Provider account, executor_for account with
           | AWSProvider, Some e => <[GetAccountName e := e]> m
           | _, _ => m
           end) m accounts.

End Agent.

Arguments AgentService {_}.
Arguments M {_} A.

End agent.

(** ** Concrete inputs

    Tag lists as a cloud account reports them, and an instance of
    [agent.Packages] in which an executor is the account it was built
    from, construction fails for an account without a key, and the
    account list depends on the credentials file. *)
Module samples.

Import inventory agent.

Definition marker : string := "kubernetes.io/cluster/".

Definition installer_tag : Tag :=
  NewTag "kubernetes.io/cluster/mycluster-ab12c" "owned" "i-0a1".

Definition installer_tags : list Tag :=
  [NewTag "Owner" "alice" "i-0a1";
   installer_tag;
   NewTag "kubernetes.io/cluster/other-zz9zz" "owned" "i-0a1"].

Definition plain_tags : list Tag :=
  [NewTag "Owner" "alice" "i-0a1"; NewTag "Name" "worker-1" "i-0a1"].

Definition short_suffix_tag : Tag :=
  NewTag "kubernetes.io/cluster/abc" "owned" "i-0a1".

Definition short_suffix_tags : list Tag :=
  [NewTag "Name" "worker-1" "i-0a1"; short_suffix_tag].

Definition round_trip_tag : Tag :=
  NewTag (installer_key "my-cluster" "x7k2p") "owned" "i-0b2".

Definition round_trip_tags : list Tag :=
  [NewTag "Name" "master-0" "i-0b2";
   round_trip_tag;
   NewTag "kubernetes.io/cluster/other-zz9zz" "shared" "i-0b2"].

Definition relabelled_tags : list Tag :=
  [NewTag "Name" "" "i-0c3";
   NewTag (installer_key "my-cluster" "x7k2p") "shared" "i-0c3";
   NewTag "kubernetes.io/cluster/other-zz9zz" "" ""].

Record account : Type := mkAccount {
  account_id : string;
  account_name : string;
  account_provider : CloudProvider;
  account_user : string;
  account_key : string
}.

Definition acct_a_old : AccountConfig :=
  mkAccountConfig AWSProvider "acct-a" "old-user" "old-key".
Definition acct_b : AccountConfig :=
  mkAccountConfig GCPProvider "acct-b" "gcp-user" "gcp-key".
Definition acct_a_new : AccountConfig :=
  mkAccountConfig AWSProvider "acct-a" "new-user" "new-key".
Definition acct_c : AccountConfig :=
  mkAccountConfig AWSProvider "acct-c" "c-user" "c-key".
Definition acct_nokey : AccountConfig :=
  mkAccountConfig AWSProvider "acct-d" "d-user" "".

Definition read_accounts (file : string) : list AccountConfig * option error :=
  if String.eqb file "duplicates.yaml" then
    ([acct_a_old; acct_b; acct_a_new], None)
  else if String.eqb file "nokey.yaml" then
    ([acct_a_old; acct_nokey; acct_c], None)
  else if String.eqb file "unimplemented.yaml" then
    ([acct_a_old; acct_b; acct_c], None)
  else ([], Some (Errorf "open credentials: no such file or directory")).

Definition packages : Packages := {|
  Account := account;
  NewAccount := mkAccount;
  CloudExecutor := account;
  GetAccountName := account_name;
  NewAWSExecutor := λ acc,
    if String.eqb (account_key acc) "" then None else Some acc;
  ReadCloudAccounts := read_accounts
|}.

Definition service (file : string) : @AgentService packages :=
  @NewAgentService packages (mkAgentConfig file) [].

End samples.

(** * Theorems *)

(** ** The patterns *)

Lemma clusterNameRegexp_compiles :
  ∃ re, regexp.Compile inventory.clusterNameRegexp = Some re ∧ regexp.NumSubexp re = 1.
Proof. eexists. split; vm_compute; reflexivity. Qed.

Lemma infraIDRegexp_compiles :
  ∃ re, regexp.Compile inventory.infraIDRegexp = Some re ∧ regexp.NumSubexp re = 1.
Proof. eexists. split; vm_compute; reflexivity. Qed.

Lemma FindAllStringSubmatch1_MatchString re s :
  regexp.FindAllStringSubmatch1 re s = [] ↔ regexp.MatchString re s = false.
Proof.
  unfold regexp.FindAllStringSubmatch1, regexp.MatchString.
  destruct (regexp.search _ _ _) as [[b t]|]; split; congruence.
Qed.

(** ** Patterns that match the same keys *)

Section Similar.

Import regexp.

Lemma succeeds_orelse {A} (x y : option A) :
  succeeds (orelse x y) = succeeds x || succeeds y.
Proof. by destruct x, y. Qed.

Lemma same_place_advance (w : nat) (t1 t2 : thread) :
  same_place t1 t2 → same_place (advance w t1) (advance w t2).
Proof. intros [Hp Hr]. unfold same_place, advance. simpl. by rewrite Hp, Hr. Qed.

Lemma star_same_success (g g' : bool) body1 body2 k1 k2 (fuel : nat) :
  (∀ k1 k2, same_success k1 k2 → same_success (body1 k1) (body2 k2)) →
  same_success k1 k2 →
  same_success (star g body1 k1 fuel) (star g' body2 k2 fuel).
Proof.
  intros Hbody Hk. induction fuel as [|fuel IHf]; intros t1 t2 Hpl; simpl.
  - by apply Hk.
  - fold (star g body1 k1 fuel) (star g' body2 k2 fuel).
    assert (succeeds (body1 (λ t', if (pos t' <=? pos t1)%nat then None
                                   else star g body1 k1 fuel t') t1) =
            succeeds (body2 (λ t', if (pos t' <=? pos t2)%nat then None
                                   else star g' body2 k2 fuel t') t2)) as Hagain.
    { apply Hbody; [|exact Hpl]. intros u1 u2 Hu.
      destruct Hpl as [Hp _]. destruct (Hu) as [Hup _]. rewrite Hup, Hp.
      destruct (pos u2 <=? pos t2)%nat; [reflexivity|]. by apply IHf. }
    pose proof (Hk _ _ Hpl) as Hnow.
    destruct g, g'; rewrite !succeeds_orelse, Hnow, Hagain;
      try reflexivity; apply orb_comm.
Qed.

Lemma repeat_same_success body1 body2 (n : nat) k1 k2 :
  (∀ k1 k2, same_success k1 k2 → same_success (body1 k1) (body2 k2)) →
  same_success k1 k2 →
  same_success (repeat body1 n k1) (repeat body2 n k2).
Proof.
  intros Hbody. revert k1 k2.
  induction n as [|n IHn]; intros k1 k2 Hk; simpl; [exact Hk|].
  by apply Hbody, IHn.
Qed.

Lemma run_similar (r1 r2 : Regexp) :
  similar r1 r2 →
  ∀ k1 k2, same_success k1 k2 → same_success (run r1 k1) (run r2 k2).
Proof.
  induction 1 as [| |c| | |i r r' _ IH|i r r' _ IH|g g' r r' _ IH|n r r' _ IH
                 |r1 r2 r1' r2' _ IH1 _ IH2|r r' _ IH|r r' _ IH];
    intros k1 k2 Hk t1 t2 Hpl.
  - reflexivity.
  - simpl. by apply Hk.
  - simpl. destruct Hpl as [Hp Hr]. rewrite Hr.
    destruct (rest t2) as [|a s] eqn:E; [reflexivity|].
    destruct (Ascii.eqb a c); [|reflexivity].
    apply Hk, same_place_advance. split; [exact Hp|congruence].
  - simpl. destruct Hpl as [Hp Hr]. rewrite Hr.
    destruct (rest t2) as [|a s] eqn:E; [reflexivity|].
    destruct (utf8.rune_is_newline _); [reflexivity|].
    apply Hk, same_place_advance. split; [exact Hp|congruence].
  - simpl. destruct Hpl as [Hp Hr]. rewrite Hr.
    destruct (rest t2) eqn:E; [|reflexivity]. apply Hk.
    split; [exact Hp|congruence].
  - simpl. apply IH; [|exact Hpl]. intros u1 u2 [Hp Hr]. apply Hk. by split.
  - simpl. apply IH; [|exact Hpl]. intros u1 u2 [Hp Hr]. apply Hk. by split.
  - change (succeeds (star g (run r) k1 (S (String.length (rest t1))) t1) =
            succeeds (star g' (run r') k2 (S (String.length (rest t2))) t2)).
    rewrite (proj2 Hpl). by apply star_same_success.
  - change (succeeds (repeat (run r) n k1 t1) =
            succeeds (repeat (run r') n k2 t2)).
    by apply repeat_same_success.
  - simpl. apply IH1; [|exact Hpl]. by apply IH2.
  - simpl. apply IH; [|exact Hpl]. intros u1 u2 Hu. simpl. by apply Hk.
  - simpl. apply IH; [|exact Hpl]. intros u1 u2 Hu. simpl. by apply Hk.
Qed.

Lemma MatchString_similar (r1 r2 : Regexp) (s : string) :
  similar r1 r2 → MatchString r1 s = MatchString r2 s.
Proof.
  intros Hsim. unfold MatchString.
  generalize (S (String.length s)) (Thread 0 s []).
  intros fuel. induction fuel as [|fuel IH]; intros t; simpl; [reflexivity|].
  assert (succeeds (run r1 Some t) = succeeds (run r2 Some t)) as Hrun.
  { apply (run_similar _ _ Hsim); [|by split]. by intros u1 u2 _. }
  destruct (run r1 Some t), (run r2 Some t); try discriminate; [reflexivity|].
  destruct (rest t); [reflexivity|]. apply IH.
Qed.

(** The two patterns of [tag.go] match the same keys. *)
Lemma clusterName_infraID_match_same_keys (key : string) :
  MatchString (MustCompile inventory.clusterNameRegexp) key =
  MatchString (MustCompile inventory.infraIDRegexp) key.
Proof.
  apply MatchString_similar.
  vm_compute.
  repeat first [apply similar_literal | apply similar_any | apply similar_concat].
  - apply similar_capture_l, similar_concat_empty_l, similar_star, similar_any.
  - apply similar_capture_r, similar_concat_empty_r, similar_repeat, similar_any.
  - apply similar_end.
  - apply similar_empty_match.
Qed.

End Similar.

(** ** The resolver follows the first tag whose key contains the marker *)

Section Resolver.

Import inventory.
Variable ClusterTagKey : string.

Lemma GetClusterNameFromTags_first (tags : list Tag) :
  GetClusterNameFromTags ClusterTagKey tags =
  match first_cluster_tag ClusterTagKey tags with
  | Some tag => parseClusterName (Key tag)
  | None => unknownClusterNameCode
  end.
Proof.
  induction tags as [|tag tags IH]; simpl; [reflexivity|].
  destruct (strings.Contains (Key tag) ClusterTagKey); [reflexivity|exact IH].
Qed.

Lemma GetClusterIDFromTags_first (tags : list Tag) :
  GetClusterIDFromTags ClusterTagKey tags =
  match first_cluster_tag ClusterTagKey tags with
  | Some tag => parseClusterID (Key tag)
  | None => unknownClusterNameCode
  end.
Proof.
  induction tags as [|tag tags IH]; simpl; [reflexivity|].
  destruct (strings.Contains (Key tag) ClusterTagKey); [reflexivity|exact IH].
Qed.

Lemma GetInfraIDFromTags_first (tags : list Tag) :
  GetInfraIDFromTags ClusterTagKey tags =
  match first_cluster_tag ClusterTagKey tags with
  | Some tag => parseInfraID (Key tag)
  | None => unknownClusterNameCode
  end.
Proof.
  induction tags as [|tag tags IH]; simpl; [reflexivity|].
  destruct (strings.Contains (Key tag) ClusterTagKey); [reflexivity|exact IH].
Qed.

(** No key contains the marker exactly when the scan selects no tag. *)
Lemma first_cluster_tag_None (tags : list Tag) :
  first_cluster_tag ClusterTagKey tags = None ↔
  Forall (λ tag, strings.Contains (Key tag) ClusterTagKey = false) tags.
Proof.
  unfold first_cluster_tag. induction tags as [|tag tags IH]; simpl.
  - split; [constructor|reflexivity].
  - destruct (strings.Contains (Key tag) ClusterTagKey) eqn:E.
    + split; [discriminate|]. intros HF. inversion HF; congruence.
    + rewrite IH. split; [by constructor|]. by inversion 1.
Qed.

(** The selected tag splits the list: nothing before it has the
    marker in its key. *)
Lemma first_cluster_tag_Some (tags : list Tag) (tag : Tag) :
  first_cluster_tag ClusterTagKey tags = Some tag ↔
  ∃ before after,
    tags = (before ++ tag :: after)%list ∧
    Forall (λ tag', strings.Contains (Key tag') ClusterTagKey = false) before ∧
    strings.Contains (Key tag) ClusterTagKey = true.
Proof.
  unfold first_cluster_tag. revert tag.
  induction tags as [|t tags IH]; intros tag; simpl.
  - split; [discriminate|]. intros (b & a & E & _). by destruct b.
  - destruct (strings.Contains (Key t) ClusterTagKey) eqn:E.
    + split.
      * intros [= ->]. exists [], tags. repeat split; [constructor|exact E].
      * intros (b & a & Etags & Hb & Ht). destruct b as [|t' b].
        -- simpl in Etags. congruence.
        -- simpl in Etags. injection Etags as -> _.
           inversion Hb; congruence.
    + rewrite IH. split.
      * intros (b & a & -> & Hb & Ht). exists (t :: b), a.
        repeat split; [by constructor|exact Ht].
      * intros (b & a & Etags & Hb & Ht). destruct b as [|t' b].
        -- simpl in Etags. injection Etags as -> _. congruence.
        -- simpl in Etags. injection Etags as -> ->.
           exists b, a. repeat split; [by inversion Hb|exact Ht].
Qed.

End Resolver.

(** ** Lookup by key *)

Section Lookup.

Import inventory.

Lemma LookForTagByKey_cases (key : string) (tags : list Tag) :
  LookForTagByKey key tags =
  if existsb (λ tag, String.eqb (Key tag) key) tags then Some zeroTag else None.
Proof.
  induction tags as [|tag tags IH]; simpl; [reflexivity|].
  destruct (String.eqb (Key tag) key); [reflexivity|exact IH].
Qed.

(** C10. [LookForTagByKey key tags] is nil exactly when no tag of
    [tags] has the key [key]; when some tag has it, the result points
    to the zero [Tag], whose three fields are empty, whatever the
    matching tag holds. *)
Theorem LookForTagByKey_nil_or_zero (key : string) (tags : list Tag) :
  (LookForTagByKey key tags = None ↔ Forall (λ tag, Key tag ≠ key) tags) ∧
  (Exists (λ tag, Key tag = key) tags ↔
   LookForTagByKey key tags = Some zeroTag) ∧
  Key zeroTag = "" ∧ Value zeroTag = "" ∧ InstanceID zeroTag = "".
Proof.
  rewrite LookForTagByKey_cases.
  split; [|split; [|by repeat split]].
  - rewrite Forall_forall.
    destruct (existsb _ tags) eqn:E.
    + split; [discriminate|]. intros Hall.
      apply existsb_exists in E as (tag & Hin & Heq).
      apply String.eqb_eq in Heq. apply list_elem_of_In in Hin.
      by destruct (Hall tag Hin).
    + split; [|reflexivity]. intros _ tag Hin Heq.
      apply not_true_iff_false in E. apply E, existsb_exists.
      exists tag. split; [by apply list_elem_of_In|by apply String.eqb_eq].
  - rewrite Exists_exists.
    destruct (existsb _ tags) eqn:E.
    + split; [reflexivity|]. intros _.
      apply existsb_exists in E as (tag & Hin & Heq).
      exists tag. split; [by apply list_elem_of_In|by apply String.eqb_eq].
    + split; [|discriminate]. intros (tag & Hin & Heq).
      apply not_true_iff_false in E. destruct E. apply existsb_exists.
      exists tag. split; [by apply list_elem_of_In|by apply String.eqb_eq].
Qed.

(** C2. The code does not return the value of the tag: for every tag
    list [GetOwnerFromTags] and [GetInstanceNameFromTags] return the
    empty string, because they read the [Key] field of the zero [Tag]
    that [LookForTagByKey] points to; on a list that holds an "Owner"
    (a "Name") tag with a non-empty value this differs from the value
    the specification asks for. *)
Theorem GetOwnerFromTags_always_empty :
  (∀ tags : list Tag,
     GetOwnerFromTags tags = "" ∧ GetInstanceNameFromTags tags = "") ∧
  spec_value_of_key "Owner" [NewTag "Owner" "alice" "i-0a1"] = "alice" ∧
  GetOwnerFromTags [NewTag "Owner" "alice" "i-0a1"] = "" ∧
  spec_value_of_key "Name" [NewTag "Name" "worker-1" "i-0a1"] = "worker-1" ∧
  GetInstanceNameFromTags [NewTag "Name" "worker-1" "i-0a1"] = "".
Proof.
  split; [|by repeat split].
  intros tags. unfold GetOwnerFromTags, GetInstanceNameFromTags.
  rewrite !LookForTagByKey_cases.
  split; by destruct (existsb _ tags).
Qed.

End Lookup.

(** ** Cluster name, cluster ID and infrastructure ID *)

Section ClusterIdentity.

Import inventory.
Variable ClusterTagKey : string.

(** [parseClusterID] and [parseClusterName] are the same function: both
    compile [clusterNameRegexp] and both fall back to the same code. *)
Lemma parseClusterID_is_parseClusterName (key : string) :
  parseClusterID key = parseClusterName key.
Proof. reflexivity. Qed.

Lemma parse_installer_key :
  parseClusterName "kubernetes.io/cluster/mycluster-ab12c" = "mycluster" ∧
  parseInfraID "kubernetes.io/cluster/mycluster-ab12c" = "ab12c".
Proof. split; vm_compute; reflexivity. Qed.

(** C1. On a tag list whose first tag with the marker in its key has
    the key "kubernetes.io/cluster/mycluster-ab12c",
    [GetClusterIDFromTags] returns the cluster name "mycluster", which
    is what [GetClusterNameFromTags] returns, and not the 5-character
    suffix "ab12c". *)
Theorem GetClusterIDFromTags_returns_name (tags : list Tag) (tag : Tag) :
  first_cluster_tag ClusterTagKey tags = Some tag →
  Key tag = "kubernetes.io/cluster/mycluster-ab12c" →
  GetClusterIDFromTags ClusterTagKey tags = "mycluster" ∧
  GetClusterIDFromTags ClusterTagKey tags = GetClusterNameFromTags ClusterTagKey tags ∧
  GetClusterIDFromTags ClusterTagKey tags ≠ "ab12c".
Proof.
  intros Hfirst Hkey.
  rewrite GetClusterIDFromTags_first, GetClusterNameFromTags_first, Hfirst, Hkey.
  rewrite parseClusterID_is_parseClusterName.
  destruct parse_installer_key as [-> _]. by repeat split.
Qed.

(** C3, as the code has it. On a tag list in which no key contains the
    marker, [GetClusterNameFromTags], [GetClusterIDFromTags] and
    [GetInfraIDFromTags] all three return "UNKNOWN-CLUSTER". *)
Theorem no_cluster_tag_all_unknown (tags : list Tag) :
  Forall (λ tag, strings.Contains (Key tag) ClusterTagKey = false) tags →
  GetClusterNameFromTags ClusterTagKey tags = "UNKNOWN-CLUSTER" ∧
  GetClusterIDFromTags ClusterTagKey tags = "UNKNOWN-CLUSTER" ∧
  GetInfraIDFromTags ClusterTagKey tags = "UNKNOWN-CLUSTER".
Proof.
  intros Hno. apply first_cluster_tag_None in Hno.
  rewrite GetClusterNameFromTags_first, GetClusterIDFromTags_first,
    GetInfraIDFromTags_first, Hno.
  by repeat split.
Qed.

(** C4. On a tag list whose first tag with the marker in its key has
    the key "kubernetes.io/cluster/mycluster-ab12c",
    [GetClusterNameFromTags] returns "mycluster" and
    [GetInfraIDFromTags] returns "ab12c". *)
Theorem installer_key_name_and_infra_id (tags : list Tag) (tag : Tag) :
  first_cluster_tag ClusterTagKey tags = Some tag →
  Key tag = "kubernetes.io/cluster/mycluster-ab12c" →
  GetClusterNameFromTags ClusterTagKey tags = "mycluster" ∧
  GetInfraIDFromTags ClusterTagKey tags = "ab12c".
Proof.
  intros Hfirst Hkey.
  rewrite GetClusterNameFromTags_first, GetInfraIDFromTags_first, Hfirst, Hkey.
  exact parse_installer_key.
Qed.

Lemma parse_no_match (key : string) :
  regexp.MatchString (regexp.MustCompile clusterNameRegexp) key = false ∨
  regexp.MatchString (regexp.MustCompile infraIDRegexp) key = false →
  parseClusterName key = "UNKNOWN-CLUSTER" ∧
  parseClusterID key = "UNKNOWN-CLUSTER" ∧
  parseInfraID key = "".
Proof.
  intros Hno.
  assert (regexp.MatchString (regexp.MustCompile clusterNameRegexp) key = false ∧
          regexp.MatchString (regexp.MustCompile infraIDRegexp) key = false)
    as [Hname Hinfra].
  { pose proof (clusterName_infraID_match_same_keys key) as Hsame.
    destruct Hno as [Hno|Hno]; split; congruence. }
  apply FindAllStringSubmatch1_MatchString in Hname, Hinfra.
  unfold parseClusterID, parseClusterName, parseInfraID.
  rewrite Hname, Hinfra. by repeat split.
Qed.

(** C9. On a tag list whose first tag with the marker in its key has a
    key that the extraction patterns do not match (they match the same
    keys, so one of them failing is enough), [GetInfraIDFromTags]
    returns the empty string, not the sentinel, while
    [GetClusterNameFromTags] and [GetClusterIDFromTags] return
    "UNKNOWN-CLUSTER". *)
Theorem unmatched_key_asymmetry (tags : list Tag) (tag : Tag) :
  first_cluster_tag ClusterTagKey tags = Some tag →
  regexp.MatchString (regexp.MustCompile clusterNameRegexp) (Key tag) = false ∨
  regexp.MatchString (regexp.MustCompile infraIDRegexp) (Key tag) = false →
  GetInfraIDFromTags ClusterTagKey tags = "" ∧
  GetInfraIDFromTags ClusterTagKey tags ≠ "UNKNOWN-CLUSTER" ∧
  GetClusterNameFromTags ClusterTagKey tags = "UNKNOWN-CLUSTER" ∧
  GetClusterIDFromTags ClusterTagKey tags = "UNKNOWN-CLUSTER".
Proof.
  intros Hfirst Hno.
  destruct (parse_no_match _ Hno) as (Hn & Hi & Hf).
  rewrite GetClusterNameFromTags_first, GetClusterIDFromTags_first,
    GetInfraIDFromTags_first, Hfirst, Hn, Hi, Hf.
  by repeat split.
Qed.

End ClusterIdentity.

(** ** The patterns on the keys the installer writes *)

Section Patterns.

Import regexp inventory.

Lemma advance_cons (p : nat) (a : ascii) (s : string) c :
  advance 1 (Thread p (String a s) c) = Thread (p + 1) s c.
Proof. unfold advance. simpl. by rewrite drop_0, string_of_list_ascii_of_string. Qed.

Lemma is_plain_first (a : ascii) : is_plain a = true → utf8.first a = None.
Proof.
  unfold is_plain, utf8.first, utf8.byte_of. intros [Hlt _]%andb_true_iff.
  apply N.ltb_lt in Hlt.
  destruct (N.ltb_spec (N_of_ascii a) 0xC2) as [_|Hge]; [reflexivity|lia].
Qed.

Lemma run_any_plain (a : ascii) (s : string) k p c :
  is_plain a = true →
  run OpAnyCharNotNL k (Thread p (String a s) c) = k (Thread (p + 1) s c).
Proof.
  intros Hpl. simpl. rewrite (is_plain_first _ Hpl).
  apply andb_true_iff in Hpl as [_ Hnl]. apply negb_true_iff in Hnl.
  rewrite Hnl. by rewrite advance_cons.
Qed.

Lemma orelse_None_r {A} (x : option A) : orelse x None = x.
Proof. by destruct x. Qed.

Lemma star_any_here (g : bool) k c (s : string) (p fuel : nat) :
  plain_text s = true →
  String.length s < fuel →
  (∀ x y, s = x ++ y → x ≠ "" → k (Thread (p + String.length x) y c) = None) →
  star g (run OpAnyCharNotNL) k fuel (Thread p s c) = k (Thread p s c).
Proof.
  revert p fuel. induction s as [|a s IH]; intros p fuel Hpl Hfuel Hk;
    (destruct fuel as [|fuel]; [simpl in Hfuel; lia|]).
  - simpl. destruct g; [reflexivity|apply orelse_None_r].
  - simpl in Hpl. apply andb_true_iff in Hpl as [Ha Hs].
    change (star g (run OpAnyCharNotNL) k (S fuel) (Thread p (String a s) c))
      with (let again :=
              run OpAnyCharNotNL
                  (λ t', if (pos t' <=? p)%nat then None
                         else star g (run OpAnyCharNotNL) k fuel t')
                  (Thread p (String a s) c) in
            if g then orelse again (k (Thread p (String a s) c))
            else orelse (k (Thread p (String a s) c)) again).
    rewrite (run_any_plain _ _ _ _ _ Ha). simpl pos.
    rewrite (proj2 (Nat.leb_gt (p + 1) p)) by lia.
    rewrite IH; [|exact Hs|simpl in Hfuel; lia|].
    + pose proof (Hk (String a "") s eq_refl) as Hnext. simpl in Hnext.
      rewrite Hnext by discriminate.
      simpl. destruct g; [reflexivity|apply orelse_None_r].
    + intros x y -> Hx. replace (p + 1 + String.length x)
        with (p + String.length (String a x)) by (simpl; lia).
      by apply Hk.
Qed.

Lemma star_any_unique (g : bool) k c (pre post : string) (p fuel : nat) :
  plain_text pre = true →
  plain_text post = true →
  String.length (pre ++ post) < fuel →
  (∀ x y, pre ++ post = x ++ y → x ≠ pre →
          k (Thread (p + String.length x) y c) = None) →
  star g (run OpAnyCharNotNL) k fuel (Thread p (pre ++ post) c) =
  k (Thread (p + String.length pre) post c).
Proof.
  revert p fuel. induction pre as [|a pre IH]; intros p fuel Hpre Hpost Hfuel Hk.
  - simpl. rewrite Nat.add_0_r. apply star_any_here; [exact Hpost|exact Hfuel|].
    intros x y Hxy Hx. by apply Hk.
  - destruct fuel as [|fuel]; [simpl in Hfuel; lia|].
    simpl in Hpre. apply andb_true_iff in Hpre as [Ha Hpre].
    change (star g (run OpAnyCharNotNL) k (S fuel)
                 (Thread p (String a pre ++ post) c))
      with (let again :=
              run OpAnyCharNotNL
                  (λ t', if (pos t' <=? p)%nat then None
                         else star g (run OpAnyCharNotNL) k fuel t')
                  (Thread p (String a (pre ++ post)) c) in
            if g then orelse again (k (Thread p (String a (pre ++ post)) c))
            else orelse (k (Thread p (String a (pre ++ post)) c)) again).
    rewrite (run_any_plain _ _ _ _ _ Ha). simpl pos.
    rewrite (proj2 (Nat.leb_gt (p + 1) p)) by lia.
    rewrite IH; [|exact Hpre|exact Hpost|simpl in Hfuel; lia|].
    + pose proof (Hk "" (String a (pre ++ post)) eq_refl) as Hnow.
      simpl in Hnow. rewrite Nat.add_0_r in Hnow. rewrite Hnow by discriminate.
      replace (p + 1 + String.length pre)
        with (p + String.length (String a pre)) by (simpl; lia).
      simpl. destruct g; [apply orelse_None_r|reflexivity].
    + intros x y Hxy Hx. replace (p + 1 + String.length x)
        with (p + String.length (String a x)) by (simpl; lia).
      apply Hk; [|congruence].
      change (String a (pre ++ post) = String a (x ++ y)). congruence.
Qed.

Lemma repeat_any_all (n : nat) (s : string) k (p : nat) c :
  plain_text s = true →
  String.length s = n →
  repeat (run OpAnyCharNotNL) n k (Thread p s c) = k (Thread (p + n) "" c).
Proof.
  intros Hpl Hlen. subst n. revert p Hpl.
  induction s as [|a s IH]; intros p Hpl; simpl.
  - by rewrite Nat.add_0_r.
  - simpl in Hpl. apply andb_true_iff in Hpl as [Ha Hs].
    change (run OpAnyCharNotNL (repeat (run OpAnyCharNotNL) (String.length s) k)
                (Thread p (String a s) c) =
            k (Thread (p + S (String.length s)) "" c)).
    rewrite (run_any_plain _ _ _ _ _ Ha), IH by exact Hs.
    f_equal. f_equal. lia.
Qed.

Lemma repeat_any_end (n : nat) (s : string) k (p : nat) c r :
  plain_text s = true →
  (∀ t r', k t = Some r' → rest t = "") →
  repeat (run OpAnyCharNotNL) n k (Thread p s c) = Some r →
  String.length s = n.
Proof.
  intros Hpl Hend. revert s p Hpl. induction n as [|n IH]; intros s p Hpl Hrun.
  - simpl in Hrun. apply Hend in Hrun. simpl in Hrun. by subst s.
  - change (run OpAnyCharNotNL (repeat (run OpAnyCharNotNL) n k)
                (Thread p s c) = Some r) in Hrun.
    destruct s as [|a s]; [discriminate|].
    simpl in Hpl. apply andb_true_iff in Hpl as [Ha Hs].
    rewrite (run_any_plain _ _ _ _ _ Ha) in Hrun.
    simpl. f_equal. by apply (IH _ _ Hs Hrun).
Qed.

Lemma length_append (a b : string) :
  String.length (a ++ b) = String.length a + String.length b.
Proof.
  induction a as [|x a IH]; [reflexivity|].
  change (S (String.length (a ++ b)) = S (String.length a + String.length b)).
  by rewrite IH.
Qed.

Lemma append_inv_length (a b x y : string) :
  a ++ b = x ++ y → String.length y = String.length b → x = a.
Proof.
  revert x. induction a as [|c a IH]; intros x Heq Hlen.
  - destruct x as [|d x]; [reflexivity|].
    apply (f_equal String.length) in Heq. rewrite !length_append in Heq.
    simpl in Heq. lia.
  - destruct x as [|d x].
    + apply (f_equal String.length) in Heq. rewrite !length_append in Heq.
      simpl in Heq. lia.
    + change (String c (a ++ b) = String d (x ++ y)) in Heq.
      injection Heq as -> Heq. f_equal. by apply IH.
Qed.

Lemma plain_text_append (a b : string) :
  plain_text (a ++ b) = plain_text a && plain_text b.
Proof.
  induction a as [|c a IH]; [reflexivity|].
  change (is_plain c && plain_text (a ++ b) =
          is_plain c && plain_text a && plain_text b).
  by rewrite IH, andb_assoc.
Qed.

Lemma plain_text_suffix (x y s : string) :
  s = x ++ y → plain_text s = true → plain_text y = true.
Proof.
  intros -> Hpl. rewrite plain_text_append in Hpl.
  by apply andb_true_iff in Hpl as [_ Hy].
Qed.

Lemma substring_prefix (a b : string) : substring 0 (String.length a) (a ++ b) = a.
Proof.
  induction a as [|c a IH]; [by destruct b|].
  change (String c (substring 0 (String.length a) (a ++ b)) = String c a).
  by rewrite IH.
Qed.

Lemma substring_skip (a s : string) (n : nat) :
  substring (String.length a) n (a ++ s) = substring 0 n s.
Proof. induction a as [|c a IH]; [reflexivity|exact IH]. Qed.

Lemma substring_all (s : string) : substring 0 (String.length s) s = s.
Proof. induction s as [|c s IH]; [reflexivity|]. simpl. by rewrite IH. Qed.

Lemma slice_middle (a b c : string) :
  strings.slice (a ++ b ++ c) (String.length a)
                (String.length a + String.length b) = b.
Proof.
  unfold strings.slice.
  replace (String.length a + String.length b - String.length a)
    with (String.length b) by lia.
  by rewrite substring_skip, substring_prefix.
Qed.

Lemma append_cons (a : ascii) (s x : string) : String a s ++ x = String a (s ++ x).
Proof. reflexivity. Qed.

Lemma append_nil (x : string) : "" ++ x = x.
Proof. reflexivity. Qed.

Lemma run_concat_literal (a : ascii) r k (p : nat) (s : string) c :
  run (OpConcat (OpLiteral a) r) k (Thread p (String a s) c) =
  run r k (Thread (S p) s c).
Proof. simpl. by rewrite Ascii.eqb_refl, advance_cons, Nat.add_1_r. Qed.

Lemma run_concat_any (a : ascii) r k (p : nat) (s : string) c :
  is_plain a = true →
  run (OpConcat OpAnyCharNotNL r) k (Thread p (String a s) c) =
  run r k (Thread (S p) s c).
Proof.
  intros Ha. change (run OpAnyCharNotNL (run r k) (Thread p (String a s) c) =
                     run r k (Thread (S p) s c)).
  by rewrite run_any_plain, Nat.add_1_r.
Qed.

Lemma run_literal_inv (a : ascii) r k (t : thread) res :
  run (OpConcat (OpLiteral a) r) k t = Some res →
  ∃ s, rest t = String a s ∧
       run r k (Thread (pos t + 1) s (caps t)) = Some res.
Proof.
  destruct t as [p s c]. simpl. destruct s as [|b s]; [discriminate|].
  destruct (Ascii.eqb_spec b a) as [->|]; [|discriminate].
  rewrite advance_cons. intros Hrun. by exists s.
Qed.

Lemma run_clusterNameRegexp (name suffix : string) :
  plain_text name = true → plain_text suffix = true → String.length suffix = 5 →
  run (MustCompile clusterNameRegexp) Some (Thread 0 (installer_key name suffix) []) =
  Some (Thread (S (22 + String.length name) + 5) ""
               [(1, (22, 22 + String.length name))]).
Proof.
  intros Hname Hsuffix Hlen.
  let re := eval vm_compute in (MustCompile clusterNameRegexp) in
  change (MustCompile clusterNameRegexp) with re.
  unfold installer_key. rewrite !append_cons, !append_nil.
  rewrite !run_concat_literal, run_concat_any by reflexivity.
  rewrite !run_concat_literal.
  match goal with
  | |- run (OpConcat (OpCapture 1 (OpConcat (OpStar false OpAnyCharNotNL)
                                           OpEmptyMatch)) ?tl) Some ?t = _ =>
    change (star false (run OpAnyCharNotNL)
                 (λ t', run tl Some (Thread (pos t') (rest t')
                                            ((1, (22, pos t')) :: caps t')))
                 (S (String.length (name ++ String "-" suffix)))
                 (Thread 22 (name ++ String "-" suffix) []) =
            Some (Thread (S (22 + String.length name) + 5) ""
                         [(1, (22, 22 + String.length name))]))
  end.
  rewrite star_any_unique; [|exact Hname|simpl; by rewrite Hsuffix|lia|].
  - cbn [pos rest caps]. rewrite run_concat_literal.
    change (repeat (run OpAnyCharNotNL) 5 (run (OpConcat OpEndText OpEmptyMatch) Some)
                   (Thread (S (22 + String.length name)) suffix
                           [(1, (22, 22 + String.length name))]) = 
            Some (Thread (S (22 + String.length name) + 5) ""
                         [(1, (22, 22 + String.length name))])).
    by rewrite repeat_any_all.
  - intros x y Hxy Hx. cbn [pos rest caps].
    match goal with |- ?lhs = None => destruct lhs as [res|] eqn:Hrun end;
      [|reflexivity].
    exfalso. apply Hx.
    apply run_literal_inv in Hrun as (y' & Hy & Hrun). cbn [pos rest caps] in *.
    subst y.
    change (repeat (run OpAnyCharNotNL) 5 (run (OpConcat OpEndText OpEmptyMatch) Some)
                   (Thread (22 + String.length x + 1) y'
                           [(1, (22, 22 + String.length x))]) = Some res) in Hrun.
    apply repeat_any_end in Hrun.
    + apply (append_inv_length _ _ _ _ Hxy). simpl. lia.
    + apply (plain_text_suffix x (String "-" y')) in Hxy.
      * exact Hxy.
      * rewrite plain_text_append, Hname. simpl. by rewrite Hsuffix.
    + intros t r'. simpl. by destruct (rest t).
Qed.

Lemma run_infraIDRegexp (name suffix : string) :
  plain_text name = true → plain_text suffix = true → String.length suffix = 5 →
  run (MustCompile infraIDRegexp) Some (Thread 0 (installer_key name suffix) []) =
  Some (Thread (S (22 + String.length name) + 5) ""
               [(1, (S (22 + String.length name), S (22 + String.length name) + 5))]).
Proof.
  intros Hname Hsuffix Hlen.
  let re := eval vm_compute in (MustCompile infraIDRegexp) in
  change (MustCompile infraIDRegexp) with re.
  unfold installer_key. rewrite !append_cons, !append_nil.
  rewrite !run_concat_literal, run_concat_any by reflexivity.
  rewrite !run_concat_literal.
  match goal with
  | |- run (OpConcat (OpStar true OpAnyCharNotNL) ?tl) Some ?t = _ =>
    change (star true (run OpAnyCharNotNL) (run tl Some)
                 (S (String.length (name ++ String "-" suffix)))
                 (Thread 22 (name ++ String "-" suffix) []) =
            Some (Thread (S (22 + String.length name) + 5) ""
                         [(1, (S (22 + String.length name),
                               S (22 + String.length name) + 5))]))
  end.
  rewrite star_any_unique; [|exact Hname|simpl; by rewrite Hsuffix|lia|].
  - rewrite run_concat_literal.
    change (repeat (run OpAnyCharNotNL) 5
                   (run OpEmptyMatch
                        (λ t', run (OpConcat OpEndText OpEmptyMatch) Some
                                   (Thread (pos t') (rest t')
                                           ((1, (S (22 + String.length name), pos t'))
                                              :: caps t'))))
                   (Thread (S (22 + String.length name)) suffix []) =
            Some (Thread (S (22 + String.length name) + 5) ""
                         [(1, (S (22 + String.length name),
                               S (22 + String.length name) + 5))])).
    by rewrite repeat_any_all.
  - intros x y Hxy Hx.
    match goal with |- ?lhs = None => destruct lhs as [res|] eqn:Hrun end;
      [|reflexivity].
    exfalso. apply Hx.
    apply run_literal_inv in Hrun as (y' & Hy & Hrun). cbn [pos rest caps] in *.
    subst y.
    change (repeat (run OpAnyCharNotNL) 5
                   (run OpEmptyMatch
                        (λ t', run (OpConcat OpEndText OpEmptyMatch) Some
                                   (Thread (pos t') (rest t')
                                           ((1, (22 + String.length x + 1, pos t'))
                                              :: caps t'))))
                   (Thread (22 + String.length x + 1) y' []) = Some res) in Hrun.
    apply repeat_any_end in Hrun.
    + apply (append_inv_length _ _ _ _ Hxy). simpl. lia.
    + apply (plain_text_suffix x (String "-" y')) in Hxy; [exact Hxy|].
      rewrite plain_text_append, Hname. simpl. by rewrite Hsuffix.
    + intros t r'. simpl. by destruct (rest t).
Qed.

Lemma NumSubexp_patterns :
  NumSubexp (MustCompile clusterNameRegexp) = 1 ∧
  NumSubexp (MustCompile infraIDRegexp) = 1.
Proof. split; vm_compute; reflexivity. Qed.

Lemma append_assoc (a b c : string) : (a ++ b) ++ c = a ++ b ++ c.
Proof.
  induction a as [|x a IH]; [reflexivity|].
  change (String x ((a ++ b) ++ c) = String x (a ++ b ++ c)). by rewrite IH.
Qed.

Lemma append_nil_r (a : string) : a ++ "" = a.
Proof.
  induction a as [|x a IH]; [reflexivity|].
  change (String x (a ++ "") = String x a). by rewrite IH.
Qed.

Lemma FindAllStringSubmatch1_hit (re : Regexp) (s : string) (t' : thread) :
  run re Some (Thread 0 s []) = Some t' →
  FindAllStringSubmatch1 re s =
  [strings.slice s 0 (pos t') :: map (group s t') (seq 1 (NumSubexp re))].
Proof. intros Hrun. unfold FindAllStringSubmatch1. simpl. by rewrite Hrun. Qed.

Lemma group_latest (s : string) (p : nat) (r : string) (i b e : nat) c :
  group s (Thread p r ((i, (b, e)) :: c)) i = strings.slice s b e.
Proof.
  unfold group. simpl. by destruct (decide (i = i)).
Qed.

Lemma parseClusterName_hit (key : string) (p : nat) (r : string) (b e : nat) c :
  run (MustCompile clusterNameRegexp) Some (Thread 0 key []) =
    Some (Thread p r ((1, (b, e)) :: c)) →
  parseClusterName key = strings.slice key b e.
Proof.
  intros Hrun. unfold parseClusterName.
  rewrite (FindAllStringSubmatch1_hit _ _ _ Hrun), (proj1 NumSubexp_patterns).
  simpl. apply group_latest.
Qed.

Lemma parseInfraID_hit (key : string) (p : nat) (r : string) (b e : nat) c :
  run (MustCompile infraIDRegexp) Some (Thread 0 key []) =
    Some (Thread p r ((1, (b, e)) :: c)) →
  parseInfraID key = strings.slice key b e.
Proof.
  intros Hrun. unfold parseInfraID.
  rewrite (FindAllStringSubmatch1_hit _ _ _ Hrun), (proj2 NumSubexp_patterns).
  simpl. apply group_latest.
Qed.

Theorem parse_installer_key_plain (name suffix : string) :
  plain_text name = true → plain_text suffix = true → String.length suffix = 5 →
  parseClusterName (installer_key name suffix) = name ∧
  parseClusterID (installer_key name suffix) = name ∧
  parseInfraID (installer_key name suffix) = suffix.
Proof.
  intros Hname Hsuffix Hlen.
  assert (parseClusterID (installer_key name suffix) =
          parseClusterName (installer_key name suffix)) as ->
    by apply parseClusterID_is_parseClusterName.
  rewrite (parseClusterName_hit _ _ _ _ _ _
             (run_clusterNameRegexp _ _ Hname Hsuffix Hlen)).
  rewrite (parseInfraID_hit _ _ _ _ _ _
             (run_infraIDRegexp _ _ Hname Hsuffix Hlen)).
  split; [|split].
  - exact (slice_middle "kubernetes.io/cluster/" name ("-" ++ suffix)).
  - exact (slice_middle "kubernetes.io/cluster/" name ("-" ++ suffix)).
  - pose proof (slice_middle ("kubernetes.io/cluster/" ++ name ++ "-") suffix "")
      as Hslice.
    rewrite append_nil_r, !append_assoc, !length_append, Hlen in Hslice.
    replace (S (22 + String.length name)) with (22 + (String.length name + 1)) by lia.
    exact Hslice.
Qed.

Lemma is_suffix_refl (s : string) : is_suffix s s.
Proof. by exists "". Qed.

Lemma is_suffix_trans (a b c : string) :
  is_suffix a b → is_suffix b c → is_suffix a c.
Proof. intros [x ->] [y ->]. exists (y ++ x). by rewrite append_assoc. Qed.

Lemma string_of_list_ascii_app (l1 l2 : list ascii) :
  string_of_list_ascii (l1 ++ l2)%list =
  string_of_list_ascii l1 ++ string_of_list_ascii l2.
Proof.
  induction l1 as [|a l1 IH]; [reflexivity|].
  change (String a (string_of_list_ascii (l1 ++ l2)%list) =
          String a (string_of_list_ascii l1 ++ string_of_list_ascii l2)).
  by rewrite IH.
Qed.

Lemma advance_suffix (w : nat) (t : thread) :
  is_suffix (rest (advance w t)) (rest t).
Proof.
  exists (string_of_list_ascii (take w (list_ascii_of_string (rest t)))).
  unfold advance. cbn [rest].
  by rewrite <- string_of_list_ascii_app, take_drop, string_of_list_ascii_of_string.
Qed.

Lemma orelse_Some {A} (x y : option A) (r : A) :
  orelse x y = Some r → x = Some r ∨ y = Some r.
Proof. destruct x; simpl; auto. Qed.

Lemma star_moves_on (g : bool) body (fuel : nat) :
  moves_on body → moves_on (λ k, star g body k fuel).
Proof.
  intros Hbody k. induction fuel as [|fuel IH]; intros t res Hrun.
  - exists t. split; [apply is_suffix_refl|exact Hrun].
  - simpl in Hrun.
    assert (k t = Some res ∨
            body (λ t', if (pos t' <=? pos t)%nat then None
                        else star g body k fuel t') t = Some res) as [Hnow|Hagain].
    { destruct g; apply orelse_Some in Hrun; tauto. }
    + exists t. split; [apply is_suffix_refl|exact Hnow].
    + apply Hbody in Hagain as (t1 & Hsuf1 & Hk1).
      destruct (pos t1 <=? pos t)%nat; [discriminate|].
      apply IH in Hk1 as (t2 & Hsuf2 & Hk2).
      exists t2. split; [|exact Hk2]. by apply (is_suffix_trans _ _ _ Hsuf2).
Qed.

Lemma repeat_moves_on body (n : nat) :
  moves_on body → moves_on (repeat body n).
Proof.
  intros Hbody. induction n as [|n IH]; intros k t res Hrun.
  - exists t. split; [apply is_suffix_refl|exact Hrun].
  - simpl in Hrun. apply Hbody in Hrun as (t1 & Hsuf1 & Hk1).
    apply IH in Hk1 as (t2 & Hsuf2 & Hk2).
    exists t2. split; [|exact Hk2]. by apply (is_suffix_trans _ _ _ Hsuf2).
Qed.

Lemma run_moves_on (r : Regexp) : moves_on (run r).
Proof.
  induction r as [| |c| | |i r IH|g r IH|n r IH|r1 IH1 r2 IH2]; intros k t res Hrun.
  - discriminate.
  - exists t. split; [apply is_suffix_refl|exact Hrun].
  - simpl in Hrun. destruct (rest t) as [|a s] eqn:E; [discriminate|].
    destruct (Ascii.eqb a c); [|discriminate].
    exists (advance 1 t). split; [rewrite <- E; apply advance_suffix|exact Hrun].
  - simpl in Hrun. destruct (rest t) as [|a s] eqn:E; [discriminate|].
    destruct (utf8.rune_is_newline _); [discriminate|].
    eexists. split; [|exact Hrun]. rewrite <- E. apply advance_suffix.
  - simpl in Hrun. destruct (rest t) eqn:E; [|discriminate].
    exists t. split; [rewrite E; apply is_suffix_refl|exact Hrun].
  - simpl in Hrun. apply IH in Hrun as (t1 & Hsuf & Hk).
    eexists. split; [|exact Hk]. exact Hsuf.
  - change (star g (run r) k (S (String.length (rest t))) t = Some res) in Hrun.
    by apply (star_moves_on g (run r) _ IH) in Hrun.
  - change (repeat (run r) n k t = Some res) in Hrun.
    by apply (repeat_moves_on (run r) n IH) in Hrun.
  - simpl in Hrun. apply IH1 in Hrun as (t1 & Hsuf1 & Hk1).
    apply IH2 in Hk1 as (t2 & Hsuf2 & Hk2).
    exists t2. split; [|exact Hk2]. by apply (is_suffix_trans _ _ _ Hsuf2).
Qed.

Lemma run_after_items (n : nat) (r : Regexp) k t res :
  run r k t = Some res →
  ∃ t', is_suffix (rest t') (rest t) ∧ run (after_items n r) k t' = Some res.
Proof.
  revert r t. induction n as [|n IH]; intros r t Hrun.
  - exists t. split; [apply is_suffix_refl|exact Hrun].
  - destruct r; try (exists t; split; [apply is_suffix_refl|exact Hrun]).
    simpl in Hrun. apply run_moves_on in Hrun as (t1 & Hsuf1 & Hk1).
    apply IH in Hk1 as (t2 & Hsuf2 & Hk2).
    exists t2. split; [|exact Hk2]. by apply (is_suffix_trans _ _ _ Hsuf2).
Qed.

Lemma search_suffix (fuel : nat) (re : Regexp) (t : thread) b t' :
  search fuel re t = Some (b, t') →
  ∃ t0, is_suffix (rest t0) (rest t) ∧ run re Some t0 = Some t'.
Proof.
  revert t. induction fuel as [|fuel IH]; intros t Hs; [discriminate|].
  simpl in Hs. destruct (run re Some t) as [r|] eqn:Hrun.
  - injection Hs as _ <-. exists t. split; [apply is_suffix_refl|exact Hrun].
  - destruct (rest t) as [|a s] eqn:E; [discriminate|].
    apply IH in Hs as (t0 & Hsuf & Hrun0).
    exists t0. split; [|exact Hrun0].
    apply (is_suffix_trans _ _ _ Hsuf).
    rewrite <- E.
    exact (advance_suffix _ (Thread (pos t) (rest t) [])).
Qed.

Theorem infraIDRegexp_match_ending (key : string) :
  plain_text key = true →
  MatchString (MustCompile infraIDRegexp) key = true →
  ∃ x suffix, key = x ++ "-" ++ suffix ∧ String.length suffix = 5.
Proof.
  intros Hplain Hmatch. unfold MatchString in Hmatch.
  destruct (search _ _ _) as [[b t']|] eqn:Hs; [clear Hmatch|discriminate].
  apply search_suffix in Hs as (t0 & Hsuf0 & Hrun). cbn [rest] in Hsuf0.
  apply (run_after_items 23) in Hrun as (t1 & Hsuf1 & Hrun).
  let r := eval vm_compute in (after_items 23 (MustCompile infraIDRegexp)) in
  change (after_items 23 (MustCompile infraIDRegexp)) with r in Hrun.
  pose proof (is_suffix_trans _ _ _ Hsuf1 Hsuf0) as [x Hkey].
  apply run_literal_inv in Hrun as (y & Hy & Hrun).
  exists x, y. rewrite Hy in Hkey. split; [exact Hkey|].
  change (repeat (run OpAnyCharNotNL) 5
                 (run OpEmptyMatch
                      (λ t', run (OpConcat OpEndText OpEmptyMatch) Some
                                 (Thread (pos t') (rest t')
                                         ((1, (pos t1 + 1, pos t')) :: caps t'))))
                 (Thread (pos t1 + 1) y (caps t1)) = Some t') in Hrun.
  apply repeat_any_end in Hrun; [exact Hrun| |].
  - apply (plain_text_suffix x (String "-" y)) in Hkey; [exact Hkey|exact Hplain].
  - intros t r'. simpl. by destruct (rest t).
Qed.

End Patterns.

(** ** More on the resolver *)

Section ResolverMore.

Import inventory.
Variable ClusterTagKey : string.

(** X1. On a tag list whose first tag with the marker in its key has
    the key "kubernetes.io/cluster/<name>-<suffix>", where [name] is any
    text of ASCII characters without newline (dashes included, the
    empty name too) and [suffix] is five such characters,
    [GetClusterNameFromTags] and [GetClusterIDFromTags] return [name]
    and [GetInfraIDFromTags] returns [suffix]. *)
Theorem installer_key_round_trip (tags : list Tag) (tag : Tag)
        (name suffix : string) :
  first_cluster_tag ClusterTagKey tags = Some tag →
  Key tag = installer_key name suffix →
  plain_text name = true →
  plain_text suffix = true →
  String.length suffix = 5 →
  GetClusterNameFromTags ClusterTagKey tags = name ∧
  GetClusterIDFromTags ClusterTagKey tags = name ∧
  GetInfraIDFromTags ClusterTagKey tags = suffix.
Proof.
  intros Hfirst Hkey Hname Hsuffix Hlen.
  rewrite GetClusterNameFromTags_first, GetClusterIDFromTags_first,
    GetInfraIDFromTags_first, Hfirst, Hkey.
  by apply parse_installer_key_plain.
Qed.

Lemma dash_before_last_five_ending (x suffix : string) :
  String.length suffix = 5 →
  dash_before_last_five (x ++ "-" ++ suffix) = true.
Proof.
  intros Hlen. unfold dash_before_last_five.
  rewrite !length_append, Hlen.
  change (String.length "-") with 1.
  replace (String.length x + (1 + 5) - 6) with (0 + String.length x) by lia.
  rewrite <- (String.append_correct2 x ("-" ++ suffix) 0).
  apply andb_true_iff. split; [apply Nat.leb_le; lia|reflexivity].
Qed.

(** X2. On a tag list whose first tag with the marker in its key has a
    key of ASCII characters without newline whose sixth character from
    the end is not a dash (shorter keys included), the patterns do not
    match: [GetClusterNameFromTags] and [GetClusterIDFromTags] return
    "UNKNOWN-CLUSTER" and [GetInfraIDFromTags] returns the empty
    string. *)
Theorem key_without_dash_ending (tags : list Tag) (tag : Tag) :
  first_cluster_tag ClusterTagKey tags = Some tag →
  plain_text (Key tag) = true →
  dash_before_last_five (Key tag) = false →
  GetClusterNameFromTags ClusterTagKey tags = "UNKNOWN-CLUSTER" ∧
  GetClusterIDFromTags ClusterTagKey tags = "UNKNOWN-CLUSTER" ∧
  GetInfraIDFromTags ClusterTagKey tags = "".
Proof.
  intros Hfirst Hplain Hdash.
  rewrite GetClusterNameFromTags_first, GetClusterIDFromTags_first,
    GetInfraIDFromTags_first, Hfirst.
  apply parse_no_match. right.
  destruct (regexp.MatchString _ (Key tag)) eqn:Hmatch; [|reflexivity].
  destruct (infraIDRegexp_match_ending _ Hplain Hmatch) as (x & suffix & Hk & Hl).
  rewrite Hk, (dash_before_last_five_ending _ _ Hl) in Hdash. discriminate.
Qed.

Lemma first_cluster_tag_app (tags1 tags2 : list Tag) :
  first_cluster_tag ClusterTagKey (tags1 ++ tags2)%list =
  match first_cluster_tag ClusterTagKey tags1 with
  | Some tag => Some tag
  | None => first_cluster_tag ClusterTagKey tags2
  end.
Proof.
  unfold first_cluster_tag. induction tags1 as [|tag tags1 IH]; simpl.
  - reflexivity.
  - by destruct (strings.Contains (Key tag) ClusterTagKey).
Qed.

(** X3. The three resolvers on two tag lists put end to end: when a key
    of the first list contains the marker, the result is the one of the
    first list alone, whatever the second list holds; otherwise it is
    the result of the second list. *)
Theorem resolvers_on_appended_tags (tags1 tags2 : list Tag) :
  GetClusterNameFromTags ClusterTagKey (tags1 ++ tags2)%list =
    match first_cluster_tag ClusterTagKey tags1 with
    | Some _ => GetClusterNameFromTags ClusterTagKey tags1
    | None => GetClusterNameFromTags ClusterTagKey tags2
    end ∧
  GetClusterIDFromTags ClusterTagKey (tags1 ++ tags2)%list =
    match first_cluster_tag ClusterTagKey tags1 with
    | Some _ => GetClusterIDFromTags ClusterTagKey tags1
    | None => GetClusterIDFromTags ClusterTagKey tags2
    end ∧
  GetInfraIDFromTags ClusterTagKey (tags1 ++ tags2)%list =
    match first_cluster_tag ClusterTagKey tags1 with
    | Some _ => GetInfraIDFromTags ClusterTagKey tags1
    | None => GetInfraIDFromTags ClusterTagKey tags2
    end.
Proof.
  rewrite !GetClusterNameFromTags_first, ?GetClusterIDFromTags_first,
    !GetInfraIDFromTags_first, first_cluster_tag_app.
  by destruct (first_cluster_tag ClusterTagKey tags1).
Qed.

(** X4. On every tag list [GetClusterIDFromTags] returns what
    [GetClusterNameFromTags] returns. *)
Theorem GetClusterIDFromTags_is_GetClusterNameFromTags (tags : list Tag) :
  GetClusterIDFromTags ClusterTagKey tags = GetClusterNameFromTags ClusterTagKey tags.
Proof.
  rewrite GetClusterIDFromTags_first, GetClusterNameFromTags_first.
  destruct (first_cluster_tag ClusterTagKey tags); [|reflexivity].
  apply parseClusterID_is_parseClusterName.
Qed.

Lemma first_cluster_tag_keys (tags tags' : list Tag) :
  map Key tags = map Key tags' →
  Key <$> first_cluster_tag ClusterTagKey tags =
  Key <$> first_cluster_tag ClusterTagKey tags'.
Proof.
  unfold first_cluster_tag. revert tags'.
  induction tags as [|tag tags IH]; intros [|tag' tags'] Hkeys;
    try discriminate; [reflexivity|].
  simpl in Hkeys. injection Hkeys as Hk Hkeys. simpl. rewrite Hk.
  destruct (strings.Contains (Key tag') ClusterTagKey); [|by apply IH].
  simpl. by rewrite Hk.
Qed.

(** X5. The three resolvers read the keys only: two tag lists with the
    same keys in the same order, whatever their values and instance
    IDs, give the same cluster name, cluster ID and infrastructure
    ID. *)
Theorem resolvers_read_keys_only (tags tags' : list Tag) :
  map Key tags = map Key tags' →
  GetClusterNameFromTags ClusterTagKey tags = GetClusterNameFromTags ClusterTagKey tags' ∧
  GetClusterIDFromTags ClusterTagKey tags = GetClusterIDFromTags ClusterTagKey tags' ∧
  GetInfraIDFromTags ClusterTagKey tags = GetInfraIDFromTags ClusterTagKey tags'.
Proof.
  intros Hkeys. apply first_cluster_tag_keys in Hkeys.
  rewrite !GetClusterNameFromTags_first, ?GetClusterIDFromTags_first,
    !GetInfraIDFromTags_first.
  destruct (first_cluster_tag ClusterTagKey tags) as [tag|],
           (first_cluster_tag ClusterTagKey tags') as [tag'|];
    try discriminate; [|by repeat split].
  injection Hkeys as ->. by repeat split.
Qed.

End ResolverMore.

Lemma installer_key_round_trip_witness :
  inventory.GetClusterNameFromTags samples.marker samples.round_trip_tags = "my-cluster" ∧
  inventory.GetClusterIDFromTags samples.marker samples.round_trip_tags = "my-cluster" ∧
  inventory.GetInfraIDFromTags samples.marker samples.round_trip_tags = "x7k2p".
Proof.
  apply (installer_key_round_trip samples.marker samples.round_trip_tags
           samples.round_trip_tag "my-cluster" "x7k2p"); reflexivity.
Defined.

Lemma key_without_dash_ending_witness :
  inventory.GetClusterNameFromTags samples.marker samples.short_suffix_tags = "UNKNOWN-CLUSTER" ∧
  inventory.GetClusterIDFromTags samples.marker samples.short_suffix_tags = "UNKNOWN-CLUSTER" ∧
  inventory.GetInfraIDFromTags samples.marker samples.short_suffix_tags = "".
Proof.
  apply (key_without_dash_ending samples.marker samples.short_suffix_tags
           samples.short_suffix_tag); reflexivity.
Defined.

Lemma resolvers_read_keys_only_witness :
  inventory.GetClusterNameFromTags samples.marker samples.round_trip_tags =
    inventory.GetClusterNameFromTags samples.marker samples.relabelled_tags ∧
  inventory.GetClusterIDFromTags samples.marker samples.round_trip_tags =
    inventory.GetClusterIDFromTags samples.marker samples.relabelled_tags ∧
  inventory.GetInfraIDFromTags samples.marker samples.round_trip_tags =
    inventory.GetInfraIDFromTags samples.marker samples.relabelled_tags.
Proof.
  apply (resolvers_read_keys_only samples.marker samples.round_trip_tags
           samples.relabelled_tags).
  reflexivity.
Defined.

Lemma GetClusterIDFromTags_returns_name_witness :
  inventory.GetClusterIDFromTags samples.marker samples.installer_tags = "mycluster" ∧
  inventory.GetClusterIDFromTags samples.marker samples.installer_tags =
    inventory.GetClusterNameFromTags samples.marker samples.installer_tags ∧
  inventory.GetClusterIDFromTags samples.marker samples.installer_tags ≠ "ab12c".
Proof.
  apply (GetClusterIDFromTags_returns_name samples.marker samples.installer_tags
           samples.installer_tag); reflexivity.
Defined.

(** C3 as the specification states it fails: with no marker in any key,
    [GetInfraIDFromTags] returns "UNKNOWN-CLUSTER" and not the empty
    string. *)
Lemma no_cluster_tag_infra_id_not_empty :
  Forall (λ tag, strings.Contains (inventory.Key tag) samples.marker = false)
         samples.plain_tags ∧
  inventory.GetInfraIDFromTags samples.marker samples.plain_tags = "UNKNOWN-CLUSTER" ∧
  inventory.GetInfraIDFromTags samples.marker samples.plain_tags ≠ "".
Proof.
  split; [by repeat constructor|]. by split.
Qed.

Lemma no_cluster_tag_all_unknown_witness :
  inventory.GetClusterNameFromTags samples.marker samples.plain_tags = "UNKNOWN-CLUSTER" ∧
  inventory.GetClusterIDFromTags samples.marker samples.plain_tags = "UNKNOWN-CLUSTER" ∧
  inventory.GetInfraIDFromTags samples.marker samples.plain_tags = "UNKNOWN-CLUSTER".
Proof.
  apply (no_cluster_tag_all_unknown samples.marker samples.plain_tags).
  repeat constructor.
Defined.

Lemma installer_key_name_and_infra_id_witness :
  inventory.GetClusterNameFromTags samples.marker samples.installer_tags = "mycluster" ∧
  inventory.GetInfraIDFromTags samples.marker samples.installer_tags = "ab12c".
Proof.
  apply (installer_key_name_and_infra_id samples.marker samples.installer_tags
           samples.installer_tag); reflexivity.
Defined.

Lemma unmatched_key_asymmetry_witness :
  inventory.GetInfraIDFromTags samples.marker samples.short_suffix_tags = "" ∧
  inventory.GetInfraIDFromTags samples.marker samples.short_suffix_tags ≠ "UNKNOWN-CLUSTER" ∧
  inventory.GetClusterNameFromTags samples.marker samples.short_suffix_tags = "UNKNOWN-CLUSTER" ∧
  inventory.GetClusterIDFromTags samples.marker samples.short_suffix_tags = "UNKNOWN-CLUSTER".
Proof.
  apply (unmatched_key_asymmetry samples.marker samples.short_suffix_tags
           samples.short_suffix_tag); [reflexivity|].
  left. vm_compute. reflexivity.
Defined.

(** ** The executor registry *)

Section Registry.

Import agent.
Context `{Packages}.

Local Ltac step :=
  unfold bind, log, ret, AddExecutor, set_executor, logged, executor_for in *;
  simpl in *.

(** C6. [AddExecutor] of the nil executor returns the error "Cannot
    add a nil Executor" and leaves the service, and so the map of
    executors, as it was; [AddExecutor] of any other executor returns
    no error and changes nothing but the entry of the map under the
    executor's [GetAccountName], which becomes that executor. *)
Theorem AddExecutor_nil_fails_else_inserts (a : AgentService) :
  AddExecutor None a = (Some (Errorf "Cannot add a nil Executor"), a) ∧
  ∀ e : CloudExecutor,
    ∃ a', AddExecutor (Some e) a = (None, a') ∧
          executors a' = <[GetAccountName e := e]> (executors a) ∧
          executors a' !! GetAccountName e = Some e ∧
          (∀ name, name ≠ GetAccountName e →
                   executors a' !! name = executors a !! name) ∧
          cfg a' = cfg a ∧ logger a' = logger a.
Proof.
  split; [reflexivity|]. intros e. eexists. split; [reflexivity|]. simpl.
  split; [reflexivity|]. split; [apply lookup_insert_eq|].
  split; [|by split]. intros name Hne. by apply lookup_insert_ne.
Qed.

(** The loop over a list in two parts: the second part runs from where
    the first one ended, unless the first one returned an error. *)
Lemma createExecutors_loop_app (before after : list AccountConfig)
      (a : AgentService) :
  createExecutors_loop (before ++ after) a =
  match createExecutors_loop before a with
  | (None, a1) => createExecutors_loop after a1
  | (Some err, a1) => (Some err, a1)
  end.
Proof.
  revert a. induction before as [|account before IH]; intros a; simpl.
  - reflexivity.
  - destruct (Provider account); step; try apply IH.
    destruct (NewAWSExecutor _); step; [apply IH|reflexivity].
Qed.

(** The loop returns no other error than the one of an AWS account
    whose executor is nil. *)
Lemma createExecutors_loop_error (accounts : list AccountConfig)
      (a a' : AgentService) (err : error) :
  createExecutors_loop accounts a = (Some err, a') →
  err = Errorf "Cannot add a nil Executor" ∧
  ∃ account, account ∈ accounts ∧ Provider account = AWSProvider ∧
             executor_for account = None.
Proof.
  revert a. induction accounts as [|account accounts IH]; intros a; simpl.
  - step. discriminate.
  - destruct (Provider account) eqn:Ep; step.
    + destruct (NewAWSExecutor _) eqn:En; step.
      * intros Hl. destruct (IH _ Hl) as (-> & acc & Hin & Hp & Hn).
        split; [reflexivity|]. exists acc. split; [by right|by split].
      * intros [= <- <-]. split; [reflexivity|].
        exists account. split; [by left|]. split; [exact Ep|].
        by rewrite Ep.
    + intros Hl. destruct (IH _ Hl) as (-> & acc & Hin & Hp & Hn).
      split; [reflexivity|]. exists acc. split; [by right|by split].
    + intros Hl. destruct (IH _ Hl) as (-> & acc & Hin & Hp & Hn).
      split; [reflexivity|]. exists acc. split; [by right|by split].
    + intros Hl. destruct (IH _ Hl) as (-> & acc & Hin & Hp & Hn).
      split; [reflexivity|]. exists acc. split; [by right|by split].
Qed.

(** Every entry of the map after the loop was there before it, or is
    the executor built for an AWS account of the list, under the
    account name that executor reports. *)
Lemma createExecutors_loop_entries (accounts : list AccountConfig)
      (a a' : AgentService) (r : option error) (name : string)
      (e : CloudExecutor) :
  createExecutors_loop accounts a = (r, a') →
  executors a' !! name = Some e →
  executors a !! name = Some e ∨
  ∃ account, account ∈ accounts ∧ Provider account = AWSProvider ∧
             executor_for account = Some e ∧ GetAccountName e = name.
Proof.
  revert a. induction accounts as [|account accounts IH]; intros a; simpl.
  - step. intros [= <- <-]. by left.
  - destruct (Provider account) eqn:Ep; step.
    + destruct (NewAWSExecutor _) as [e0|] eqn:En; step.
      * intros Hl Hlook. destruct (IH _ Hl Hlook) as [Hold|(acc & Hin & Hp & Hn & Hg)].
        -- simpl in Hold. rewrite lookup_insert in Hold.
           case_decide as Hk.
           ++ right. exists account. split; [by left|]. split; [exact Ep|].
              rewrite Ep. split; [congruence|]. congruence.
           ++ by left.
        -- right. exists acc. split; [by right|by repeat split].
      * intros [= <- <-]. simpl. by left.
    + intros Hl Hlook. destruct (IH _ Hl Hlook) as [Hold|(acc & Hin & Hp & Hn & Hg)].
      * by left.
      * right. exists acc. split; [by right|by repeat split].
    + intros Hl Hlook. destruct (IH _ Hl Hlook) as [Hold|(acc & Hin & Hp & Hn & Hg)].
      * by left.
      * right. exists acc. split; [by right|by repeat split].
    + intros Hl Hlook. destruct (IH _ Hl Hlook) as [Hold|(acc & Hin & Hp & Hn & Hg)].
      * by left.
      * right. exists acc. split; [by right|by repeat split].
Qed.

(** Reading the accounts leaves the service as it is. *)
Lemma createExecutors_read (a : AgentService) (accounts : list AccountConfig) :
  ReadCloudAccounts (CredentialsFile (cfg a)) = (accounts, None) →
  createExecutors a = createExecutors_loop accounts a.
Proof.
  intros Hread. unfold createExecutors, readCloudProviderAccounts, bind.
  by rewrite Hread.
Qed.

(** C5. With the account list [AWS acct-a; GCP acct-b; AWS acct-a],
    the registry of a new service after a successful [createExecutors]
    holds one entry: under "acct-a", the executor built from the
    second AWS account.  The entry made for the first one is replaced
    and no error is raised for the repeated name.  Executors report
    the name of the account they were built from. *)
Theorem createExecutors_last_write_wins
        (config : AgentConfig) (lg : list Entry) (a' : AgentService)
        (u1 k1 u2 k2 u3 k3 : string) :
  (∀ id name p user key e,
     NewAWSExecutor (NewAccount id name p user key) = Some e →
     GetAccountName e = name) →
  ReadCloudAccounts (CredentialsFile config) =
    ([mkAccountConfig AWSProvider "acct-a" u1 k1;
      mkAccountConfig GCPProvider "acct-b" u2 k2;
      mkAccountConfig AWSProvider "acct-a" u3 k3], None) →
  createExecutors (NewAgentService config lg) = (None, a') →
  ∃ e3, executor_for (mkAccountConfig AWSProvider "acct-a" u3 k3) = Some e3 ∧
        executors a' = {["acct-a" := e3]} ∧
        size (executors a') = 1 ∧
        executors a' !! "acct-b" = None.
Proof.
  intros Hname Hread.
  rewrite (createExecutors_read (NewAgentService config lg) _ Hread).
  simpl. step.
  destruct (NewAWSExecutor (NewAccount "" "acct-a" AWSProvider u1 k1))
    as [e1|] eqn:E1; step; [|discriminate].
  destruct (NewAWSExecutor (NewAccount "" "acct-a" AWSProvider u3 k3))
    as [e3|] eqn:E3; step; [|discriminate].
  intros [= <-]. simpl. exists e3. split; [reflexivity|].
  rewrite (Hname _ _ _ _ _ _ E1), (Hname _ _ _ _ _ _ E3).
  rewrite insert_insert_eq, insert_empty.
  split; [reflexivity|]. split; [apply map_size_singleton|].
  by apply lookup_singleton_ne.
Qed.

(** C7. [createExecutors] fails fast.  When reading the account list
    fails, it returns the error of the read and the service is as
    before the call.  When the executor of an AWS account cannot be
    added, it returns that error at once: the service is the one
    reached after the accounts before it, with the two log entries of
    the failing account, whatever accounts follow in the list. *)
Theorem createExecutors_fail_fast (a : AgentService) :
  (∀ accounts err,
     ReadCloudAccounts (CredentialsFile (cfg a)) = (accounts, Some err) →
     createExecutors a = (Some err, a)) ∧
  (∀ before account after a1,
     ReadCloudAccounts (CredentialsFile (cfg a)) =
       ((before ++ account :: after)%list, None) →
     createExecutors_loop before a = (None, a1) →
     Provider account = AWSProvider →
     executor_for account = None →
     createExecutors a =
       (Some (Errorf "Cannot add a nil Executor"),
        logged (mkEntry ErrorLevel "Cannot create an AWSEexecutor for account"
                        [("account_name", Name account);
                         ("error", Errorf "Cannot add a nil Executor")])
               (logged (mkEntry InfoLevel "Creating Executor for AWS account"
                                [("account_name", Name account)]) a1)) ∧
     executors (createExecutors a).2 = executors a1).
Proof.
  split.
  - intros accounts err Hread.
    unfold createExecutors, readCloudProviderAccounts, bind.
    by rewrite Hread.
  - intros before account after a1 Hread Hbefore Haws Hnil.
    rewrite (createExecutors_read _ _ Hread), createExecutors_loop_app, Hbefore.
    simpl. rewrite Haws. unfold executor_for in Hnil. rewrite Haws in Hnil.
    step. rewrite Hnil. step. by split.
Qed.

(** C8. An account of an unimplemented provider (GCP, Azure) in the
    list makes [createExecutors] log one warning with the account name
    and the reason and go on with the accounts after it, from an
    unchanged map of executors.  If the call fails, it is for an AWS
    account; and no entry of the final map comes from the account:
    each was in the map after the accounts before it, or is the
    executor of an AWS account after it. *)
Theorem createExecutors_skips_unimplemented
        (a a1 : AgentService) (before after : list AccountConfig)
        (account : AccountConfig) :
  ReadCloudAccounts (CredentialsFile (cfg a)) =
    ((before ++ account :: after)%list, None) →
  createExecutors_loop before a = (None, a1) →
  unimplemented (Provider account) = true →
  ∃ w, level w = WarnLevel ∧
       fields w = [("account", Name account); ("reason", "not implemented")] ∧
       executors (logged w a1) = executors a1 ∧
       createExecutors a = createExecutors_loop after (logged w a1) ∧
       (∀ err, (createExecutors a).1 = Some err →
               ∃ acc, acc ∈ after ∧ Provider acc = AWSProvider ∧
                      executor_for acc = None) ∧
       (∀ name e, executors (createExecutors a).2 !! name = Some e →
                  executors a1 !! name = Some e ∨
                  ∃ acc, acc ∈ after ∧ Provider acc = AWSProvider ∧
                         executor_for acc = Some e ∧ GetAccountName e = name).
Proof.
  intros Hread Hbefore Hun.
  rewrite (createExecutors_read _ _ Hread), createExecutors_loop_app, Hbefore.
  assert (∃ w, level w = WarnLevel ∧
               fields w = [("account", Name account); ("reason", "not implemented")] ∧
               createExecutors_loop (account :: after) a1 =
               createExecutors_loop after (logged w a1)) as (w & Hl & Hf & Hstep).
  { simpl. destruct (Provider account); try discriminate; step;
      eexists (mkEntry WarnLevel _ _); by repeat split. }
  exists w. rewrite Hstep.
  split; [exact Hl|]. split; [exact Hf|]. split; [reflexivity|].
  split; [reflexivity|]. split.
  - intros err Herr.
    destruct (createExecutors_loop after (logged w a1)) as [r a'] eqn:El.
    simpl in Herr. subst r.
    destruct (createExecutors_loop_error _ _ _ _ El) as (_ & acc & Hin & Hp & Hn).
    exists acc. by repeat split.
  - intros name e Hlook.
    destruct (createExecutors_loop after (logged w a1)) as [r a'] eqn:El.
    exact (createExecutors_loop_entries _ _ _ _ _ _ El Hlook).
Qed.

End Registry.

(** ** More on the registry *)

Section RegistryMore.

Import agent.
Context `{Packages}.

Local Ltac step :=
  unfold bind, log, ret, AddExecutor, set_executor, logged, executor_for in *;
  simpl in *.

(** A successful loop, as one update of the service. *)
Lemma createExecutors_loop_success (accounts : list AccountConfig)
      (a a' : AgentService) :
  createExecutors_loop accounts a = (None, a') →
  a' = {| cfg := cfg a;
          executors := registry_after accounts (executors a);
          logger := logger a ++ flat_map entries_for accounts |} ∧
  ∀ account, account ∈ accounts → Provider account = AWSProvider →
             is_Some (executor_for account).
Proof.
  revert a. induction accounts as [|account accounts IH]; intros a; simpl.
  - step. intros [= <-]. destruct a; simpl. rewrite app_nil_r.
    split; [reflexivity|]. intros account Hin. by apply elem_of_nil in Hin.
  - unfold registry_after, entries_for, executor_for. simpl.
    destruct (Provider account) eqn:Ep; step.
    + destruct (NewAWSExecutor _) as [e|] eqn:En; step; [|discriminate].
      intros Hl. apply IH in Hl as [-> Hall]. simpl.
      rewrite <- app_assoc. split; [reflexivity|].
      intros acc [->|Hin]%elem_of_cons Hp; [|by apply Hall].
      rewrite Ep, En. by eexists.
    + intros Hl. apply IH in Hl as [-> Hall]. simpl.
      rewrite <- app_assoc. split; [reflexivity|].
      intros acc [->|Hin]%elem_of_cons Hp; [congruence|by apply Hall].
    + intros Hl. apply IH in Hl as [-> Hall]. simpl.
      rewrite <- app_assoc. split; [reflexivity|].
      intros acc [->|Hin]%elem_of_cons Hp; [congruence|by apply Hall].
    + intros Hl. apply IH in Hl as [-> Hall]. simpl.
      split; [reflexivity|].
      intros acc [->|Hin]%elem_of_cons Hp; [congruence|by apply Hall].
Qed.

Lemma createExecutors_loop_succeeds (accounts : list AccountConfig)
      (a : AgentService) :
  (∀ account, account ∈ accounts → Provider account = AWSProvider →
              is_Some (executor_for account)) →
  ∃ a', createExecutors_loop accounts a = (None, a').
Proof.
  intros Hall.
  destruct (createExecutors_loop accounts a) as [[err|] a'] eqn:El; [|by eexists].
  destruct (createExecutors_loop_error _ _ _ _ El) as (_ & acc & Hin & Hp & Hn).
  destruct (Hall acc Hin Hp) as [e He]. congruence.
Qed.

(** X6. [createExecutors] returns no error exactly when the account
    list was read and every AWS account of it gets an executor that is
    not nil; an error it returns is the one of the read or "Cannot add
    a nil Executor". *)
Theorem createExecutors_succeeds_iff (a : AgentService) :
  ((createExecutors a).1 = None ↔
   ∃ accounts,
     ReadCloudAccounts (CredentialsFile (cfg a)) = (accounts, None) ∧
     ∀ account, account ∈ accounts → Provider account = AWSProvider →
                is_Some (executor_for account)) ∧
  (∀ err, (createExecutors a).1 = Some err →
          (ReadCloudAccounts (CredentialsFile (cfg a))).2 = Some err ∨
          err = Errorf "Cannot add a nil Executor").
Proof.
  unfold createExecutors, readCloudProviderAccounts, bind.
  destruct (ReadCloudAccounts (CredentialsFile (cfg a))) as [accounts [e|]];
    simpl.
  - split.
    + split; [discriminate|]. intros (accounts' & Hread & _). discriminate.
    + intros err [= <-]. by left.
  - destruct (createExecutors_loop accounts a) as [r a'] eqn:El. simpl.
    split; [split|].
    + intros ->. exists accounts. split; [reflexivity|].
      exact (proj2 (createExecutors_loop_success _ _ _ El)).
    + intros (accounts' & [= <-] & Hall).
      destruct (createExecutors_loop_succeeds accounts a Hall) as [a'' El'].
      congruence.
    + intros err ->. right.
      exact (proj1 (createExecutors_loop_error _ _ _ _ El)).
Qed.

Lemma registry_after_cons (account : AccountConfig)
      (accounts : list AccountConfig) (m : gmap string CloudExecutor) :
  registry_after (account :: accounts) m =
  registry_after accounts
    (match Provider account, executor_for account with
     | AWSProvider, Some e => <[GetAccountName e := e]> m
     | _, _ => m
     end).
Proof. reflexivity. Qed.

Lemma registry_after_app (before after : list AccountConfig)
      (m : gmap string CloudExecutor) :
  registry_after (before ++ after) m =
  registry_after after (registry_after before m).
Proof. apply foldl_app. Qed.

Lemma dom_registry_after (accounts : list AccountConfig)
      (m : gmap string CloudExecutor) :
  (∀ account, account ∈ accounts → Provider account = AWSProvider →
              ∃ e, executor_for account = Some e ∧
                   GetAccountName e = Name account) →
  dom (registry_after accounts m) = dom m ∪ list_to_set (aws_names accounts).
Proof.
  revert m. induction accounts as [|account accounts IH]; intros m Hall.
  - simpl. by rewrite (right_id_L _ _).
  - rewrite registry_after_cons, IH.
    + unfold aws_names. simpl.
      destruct (Provider account) eqn:Ep; try reflexivity.
      destruct (Hall account) as (e & He & Hn); [by left|exact Ep|].
      rewrite He, dom_insert_L, Hn. simpl.
      rewrite (comm_L _ {[Name account]} (dom m)). by rewrite (assoc_L _).
    + intros acc Hin. apply Hall. by right.
Qed.

(** X7. When executors report the name of the account they were built
    from, the names in the registry after a successful
    [createExecutors] are the names that were there before and the
    names of the AWS accounts of the list: the accounts of other
    providers add none. *)
Theorem createExecutors_registers_aws_names
        (a : AgentService) (accounts : list AccountConfig) :
  ReadCloudAccounts (CredentialsFile (cfg a)) = (accounts, None) →
  (createExecutors a).1 = None →
  (∀ account e, account ∈ accounts → executor_for account = Some e →
                GetAccountName e = Name account) →
  dom (executors (createExecutors a).2) =
  dom (executors a) ∪ list_to_set (aws_names accounts).
Proof.
  intros Hread Hok Hname. rewrite (createExecutors_read _ _ Hread) in *.
  destruct (createExecutors_loop accounts a) as [r a'] eqn:El.
  simpl in Hok. subst r.
  destruct (createExecutors_loop_success _ _ _ El) as [-> Hall]. simpl.
  apply dom_registry_after. intros account Hin Hp.
  destruct (Hall account Hin Hp) as [e He]. exists e. split; [exact He|].
  by apply (Hname account).
Qed.

Lemma registry_after_other (accounts : list AccountConfig)
      (m : gmap string CloudExecutor) (name : string) :
  (∀ account e, account ∈ accounts → Provider account = AWSProvider →
                executor_for account = Some e → GetAccountName e ≠ name) →
  registry_after accounts m !! name = m !! name.
Proof.
  revert m. induction accounts as [|account accounts IH]; intros m Hother.
  - reflexivity.
  - rewrite registry_after_cons, IH.
    + destruct (Provider account) eqn:Ep; try reflexivity.
      destruct (executor_for account) as [e|] eqn:He; [|reflexivity].
      apply lookup_insert_ne. apply (Hother account); [by left|exact Ep|exact He].
    + intros acc e Hin. apply Hother. by right.
Qed.

(** X8. Last write wins, on any list: after a successful
    [createExecutors], the registry holds the executor of an AWS
    account under the name that executor reports, unless the executor
    of an AWS account later in the list reports the same name. *)
Theorem createExecutors_keeps_last_executor
        (a : AgentService) (before after : list AccountConfig)
        (account : AccountConfig) (e : CloudExecutor) :
  ReadCloudAccounts (CredentialsFile (cfg a)) =
    ((before ++ account :: after)%list, None) →
  (createExecutors a).1 = None →
  Provider account = AWSProvider →
  executor_for account = Some e →
  (∀ account' e', account' ∈ after → Provider account' = AWSProvider →
                  executor_for account' = Some e' →
                  GetAccountName e' ≠ GetAccountName e) →
  executors (createExecutors a).2 !! GetAccountName e = Some e.
Proof.
  intros Hread Hok Hp He Hlater. rewrite (createExecutors_read _ _ Hread) in *.
  destruct (createExecutors_loop _ a) as [r a'] eqn:El.
  simpl in Hok. subst r.
  destruct (createExecutors_loop_success _ _ _ El) as [-> _]. simpl.
  rewrite registry_after_app, registry_after_cons, Hp, He.
  rewrite registry_after_other by exact Hlater.
  apply lookup_insert_eq.
Qed.

Lemma createExecutors_loop_keeps (accounts : list AccountConfig)
      (a : AgentService) :
  cfg (createExecutors_loop accounts a).2 = cfg a ∧
  logger a `prefix_of` logger (createExecutors_loop accounts a).2 ∧
  dom (executors a) ⊆ dom (executors (createExecutors_loop accounts a).2).
Proof.
  revert a. induction accounts as [|account accounts IH]; intros a; simpl.
  - by repeat split.
  - destruct (Provider account); step.
    + destruct (NewAWSExecutor _) as [e|]; step.
      * destruct (IH {| cfg := cfg a;
                        executors := <[GetAccountName e := e]> (executors a);
                        logger := logger a ++
                          [mkEntry InfoLevel "Creating Executor for AWS account"
                                   [("account_name", Name account)]] |})
          as (Hc & Hl & Hd). simpl in *.
        split; [exact Hc|]. split.
        -- etrans; [|exact Hl]. by apply prefix_app_r.
        -- etrans; [|exact Hd]. apply dom_insert_subseteq.
      * split; [reflexivity|]. split; [|reflexivity].
        rewrite <- app_assoc. by apply prefix_app_r.
    + match goal with |- context [createExecutors_loop accounts ?a1] =>
        destruct (IH a1) as (Hc & Hl & Hd) end. simpl in *.
      split; [exact Hc|]. split; [|exact Hd].
      etrans; [|exact Hl]. by apply prefix_app_r.
    + match goal with |- context [createExecutors_loop accounts ?a1] =>
        destruct (IH a1) as (Hc & Hl & Hd) end. simpl in *.
      split; [exact Hc|]. split; [|exact Hd].
      etrans; [|exact Hl]. by apply prefix_app_r.
    + apply IH.
Qed.

(** X9. Whatever it returns, [createExecutors] leaves the
    configuration as it is, only appends to the log, and removes no
    name from the registry. *)
Theorem createExecutors_keeps (a : AgentService) :
  cfg (createExecutors a).2 = cfg a ∧
  logger a `prefix_of` logger (createExecutors a).2 ∧
  dom (executors a) ⊆ dom (executors (createExecutors a).2).
Proof.
  unfold createExecutors, readCloudProviderAccounts, bind.
  destruct (ReadCloudAccounts (CredentialsFile (cfg a))) as [accounts [e|]];
    simpl; [by repeat split|].
  apply createExecutors_loop_keeps.
Qed.

(** X10. Accounts whose provider has no [case] in the [switch] are
    passed over in silence: the loop over a list returns the error and
    the service it returns over the list without these accounts. *)
Theorem createExecutors_loop_drops_unknown (accounts : list AccountConfig)
        (a : AgentService) :
  createExecutors_loop accounts a =
  createExecutors_loop
    (List.filter (λ account, known (Provider account)) accounts) a.
Proof.
  revert a. induction accounts as [|account accounts IH]; intros a; simpl.
  - reflexivity.
  - destruct (Provider account) eqn:Ep; simpl; rewrite ?Ep; step;
      try apply IH.
    destruct (NewAWSExecutor _); step; [apply IH|reflexivity].
Qed.

(** X11. The log of a successful [createExecutors]: after the entries
    that were there, one entry for every account of a provider with a
    [case], in list order (the information entry of an AWS account, the
    warning of a GCP or Azure account), and nothing else. *)
Theorem createExecutors_success_log
        (a : AgentService) (accounts : list AccountConfig) :
  ReadCloudAccounts (CredentialsFile (cfg a)) = (accounts, None) →
  (createExecutors a).1 = None →
  logger (createExecutors a).2 = (logger a ++ flat_map entries_for accounts)%list ∧
  length (logger (createExecutors a).2) =
    length (logger a) +
    length (List.filter (λ account, known (Provider account)) accounts).
Proof.
  intros Hread Hok. rewrite (createExecutors_read _ _ Hread) in *.
  destruct (createExecutors_loop accounts a) as [r a'] eqn:El.
  simpl in Hok. subst r.
  destruct (createExecutors_loop_success _ _ _ El) as [-> _]. simpl.
  split; [reflexivity|]. rewrite length_app. f_equal.
  clear. induction accounts as [|account accounts IH]; [reflexivity|].
  simpl. rewrite length_app, IH. unfold entries_for.
  by destruct (Provider account).
Qed.

(** X12. Adding an executor again changes nothing, and adding one makes
    the registry one entry larger only when no executor was registered
    under the name it reports. *)
Theorem AddExecutor_again (e : CloudExecutor) (a : AgentService) :
  AddExecutor (Some e) (AddExecutor (Some e) a).2 =
    (None, (AddExecutor (Some e) a).2) ∧
  size (executors (AddExecutor (Some e) a).2) =
    match executors a !! GetAccountName e with
    | Some _ => size (executors a)
    | None => S (size (executors a))
    end.
Proof.
  destruct a as [c m l]. step. split.
  - unfold bind, ret. simpl. by rewrite insert_insert_eq.
  - rewrite map_size_insert. by destruct (m !! GetAccountName e).
Qed.

End RegistryMore.

Lemma createExecutors_registers_aws_names_witness :
  dom (agent.executors (@agent.createExecutors samples.packages
                          (samples.service "duplicates.yaml")).2) =
  dom (agent.executors (samples.service "duplicates.yaml")) ∪
  list_to_set (agent.aws_names
                 [samples.acct_a_old; samples.acct_b; samples.acct_a_new]).
Proof.
  apply (@createExecutors_registers_aws_names samples.packages
           (samples.service "duplicates.yaml")
           [samples.acct_a_old; samples.acct_b; samples.acct_a_new]).
  - reflexivity.
  - reflexivity.
  - intros account e _. unfold agent.executor_for. simpl.
    destruct (String.eqb (agent.Key account) ""); [discriminate|].
    by intros [= <-].
Defined.

Lemma createExecutors_keeps_last_executor_witness :
  agent.executors (@agent.createExecutors samples.packages
                     (samples.service "unimplemented.yaml")).2 !! "acct-a" =
  Some (samples.mkAccount "" "acct-a" agent.AWSProvider "old-user" "old-key").
Proof.
  apply (@createExecutors_keeps_last_executor samples.packages
           (samples.service "unimplemented.yaml")
           [] [samples.acct_b; samples.acct_c] samples.acct_a_old
           (samples.mkAccount "" "acct-a" agent.AWSProvider "old-user" "old-key")).
  - reflexivity.
  - reflexivity.
  - reflexivity.
  - reflexivity.
  - intros account' e' Hin Hp.
    apply elem_of_cons in Hin as [->|Hin]; [discriminate|].
    apply elem_of_cons in Hin as [->|Hin]; [|by apply elem_of_nil in Hin].
    intros [= <-]. discriminate.
Defined.

Lemma createExecutors_success_log_witness :
  agent.logger (@agent.createExecutors samples.packages
                  (samples.service "unimplemented.yaml")).2 =
    (agent.logger (samples.service "unimplemented.yaml") ++
     flat_map agent.entries_for
              [samples.acct_a_old; samples.acct_b; samples.acct_c])%list ∧
  length (agent.logger (@agent.createExecutors samples.packages
                          (samples.service "unimplemented.yaml")).2) =
    length (agent.logger (samples.service "unimplemented.yaml")) +
    length (List.filter (λ account, agent.known (agent.Provider account))
                        [samples.acct_a_old; samples.acct_b; samples.acct_c]).
Proof.
  apply (@createExecutors_success_log samples.packages
           (samples.service "unimplemented.yaml")
           [samples.acct_a_old; samples.acct_b; samples.acct_c]);
    reflexivity.
Defined.

Lemma createExecutors_last_write_wins_witness :
  ∃ e3, @agent.executor_for samples.packages samples.acct_a_new = Some e3 ∧
        agent.executors (@agent.createExecutors samples.packages
                           (samples.service "duplicates.yaml")).2
          = {["acct-a" := e3]} ∧
        size (agent.executors (@agent.createExecutors samples.packages
                                 (samples.service "duplicates.yaml")).2) = 1 ∧
        agent.executors (@agent.createExecutors samples.packages
                           (samples.service "duplicates.yaml")).2 !! "acct-b" = None.
Proof.
  apply (@createExecutors_last_write_wins samples.packages
           (agent.mkAgentConfig "duplicates.yaml") []
           (@agent.createExecutors samples.packages
              (samples.service "duplicates.yaml")).2
           "old-user" "old-key" "gcp-user" "gcp-key" "new-user" "new-key").
  - intros id name p user key e. simpl.
    destruct (String.eqb key ""); [discriminate|]. by intros [= <-].
  - reflexivity.
  - reflexivity.
Defined.

Lemma createExecutors_fail_fast_witness :
  @agent.createExecutors samples.packages (samples.service "missing.yaml") =
    (Some (agent.Errorf "open credentials: no such file or directory"),
     samples.service "missing.yaml") ∧
  (@agent.createExecutors samples.packages (samples.service "nokey.yaml")).1 =
    Some (agent.Errorf "Cannot add a nil Executor") ∧
  dom (agent.executors (@agent.createExecutors samples.packages
                          (samples.service "nokey.yaml")).2) = {["acct-a"]}.
Proof.
  split.
  - apply (proj1 (@createExecutors_fail_fast samples.packages
                    (samples.service "missing.yaml")) []).
    reflexivity.
  - destruct (proj2 (@createExecutors_fail_fast samples.packages
                       (samples.service "nokey.yaml"))
                    [samples.acct_a_old] samples.acct_nokey [samples.acct_c]
                    _ eq_refl eq_refl eq_refl eq_refl) as [Hrun Hmap].
    split; [by rewrite Hrun|]. rewrite Hmap. simpl.
    by rewrite dom_insert_L, dom_empty_L, union_empty_r_L.
Defined.

Lemma createExecutors_skips_unimplemented_witness :
  (@agent.createExecutors samples.packages (samples.service "unimplemented.yaml")).1 = None ∧
  dom (agent.executors (@agent.createExecutors samples.packages
                          (samples.service "unimplemented.yaml")).2)
    = {["acct-a"; "acct-c"]}.
Proof.
  destruct (@createExecutors_skips_unimplemented samples.packages
              (samples.service "unimplemented.yaml") _
              [samples.acct_a_old] [samples.acct_c] samples.acct_b
              eq_refl eq_refl eq_refl)
    as (w & _ & _ & _ & Hrun & _).
  rewrite Hrun. simpl. split; [reflexivity|].
  rewrite !dom_insert_L, dom_empty_L. set_solver.
Defined.
